(** * Apollo Berbagi donation tracker: a shallow embedding of [src/App.tsx]

    The development follows the source file top to bottom: the JavaScript
    [number] arithmetic the code relies on, the records of the TYPES section,
    [CONFIG] and [DEMO], the [useCountUp] hook, [fetchDonations] with its
    try/catch/finally, the refresh effect, and the three derived values
    [sorted], [total] and [pct] computed on every render of [App].

    Numbers.  A JavaScript [number] is an IEEE 754 binary64 value.  The finite
    ones are rationals, and every arithmetic operator returns the exact
    result rounded to the nearest value with a 53 bit significand, ties to
    even.  [fl] below is that rounding on [Q]; the exponent range is left
    unbounded (no overflow to Infinity, no subnormal numbers), NaN and the
    sign of zero are not represented. *)

From Stdlib Require Import ZArith QArith Qround Qabs Qminmax Qpower Lia Lqa.
From Stdlib Require Import SpecFloat.
From Stdlib Require Import Bool String.
From Stdlib Require Import List Permutation Sorted.
Import ListNotations.
Local Open Scope Q_scope.

(* ================================================================= *)
(** ** JavaScript numbers *)

Definition pow2 (e : Z) : Q := 2 ^ e.

(** The binade of a positive rational: [2^(ilog2 x) <= x < 2^(ilog2 x + 1)]. *)
Definition ilog2 (x : Q) : Z :=
  let e0 := (Z.log2 (Qnum x) - Z.log2 (Zpos (Qden x)))%Z in
  if Qle_bool (pow2 e0) x then e0 else (e0 - 1)%Z.

(** Round to the nearest integer, ties to the even one. *)
Definition rne (x : Q) : Z :=
  let f := Qfloor x in
  match Qcompare (x - inject_Z f) (1 # 2) with
  | Lt => f
  | Gt => (f + 1)%Z
  | Eq => if Z.even f then f else (f + 1)%Z
  end.

Definition fl_canon (x : Q) : Q :=
  if Qeq_bool x 0 then 0
  else let s := (ilog2 (Qabs x) - 52)%Z in
       Qred (inject_Z (rne (x / pow2 s)) * pow2 s).

(** Rounding of an exact result to a [number]. *)
Definition fl (x : Q) : Q := fl_canon (Qred x).

(** A rational that is a [number]. *)
Definition is_number (x : Q) : Prop := fl x == x.

Definition fadd (x y : Q) : Q := fl (x + y).   (* x + y *)
Definition fsub (x y : Q) : Q := fl (x - y).   (* x - y *)
Definition fmul (x y : Q) : Q := fl (x * y).   (* x * y *)
Definition fdiv (x y : Q) : Q := fl (x / y).   (* x / y, y nonzero *)

(** [Math.round]: the closest integer, the one closer to +Infinity on a
    tie.  It is exact, not rounded. *)
Definition Math_round (x : Q) : Z := Qfloor (x + (1 # 2)).

(** [Math.min] on two numbers. *)
Definition Math_min (x y : Q) : Q := Qmin x y.

(** [Math.pow].  ECMA-262 leaves its result "implementation-approximated":
    engines neither agree with each other nor return the correctly rounded
    power.  The hook below is therefore parametrised by the function
    [Math_pow] of the engine, and what a theorem needs of it is stated as a
    hypothesis.  [pow_correctly_rounded] is one function an engine may
    implement; it instantiates the theorems on concrete inputs. *)
Definition pow_correctly_rounded (x : Q) (n : Z) : Q := fl (x ^ n).

(** What a theorem may ask of the engine's [Math.pow(x, 4)]:
    the two exact values, the range on the unit interval and above it,
    monotonicity on the unit interval, and a relative error of at most
    2^-52 (one unit in the last place). *)
Definition pow4_at_0 (pow : Q -> Z -> Q) : Prop := pow 0 4%Z == 0.

Definition pow4_at_1 (pow : Q -> Z -> Q) : Prop := pow 1 4%Z == 1.

Definition pow4_unit (pow : Q -> Z -> Q) : Prop :=
  forall x, 0 <= x -> x <= 1 -> 0 <= pow x 4%Z /\ pow x 4%Z <= 1.

Definition pow4_above (pow : Q -> Z -> Q) : Prop :=
  forall x, 1 <= x -> 1 <= pow x 4%Z.

Definition pow4_monotone (pow : Q -> Z -> Q) : Prop :=
  forall x y, 0 <= x -> x <= y -> y <= 1 -> pow x 4%Z <= pow y 4%Z.

Definition pow4_accurate (pow : Q -> Z -> Q) : Prop :=
  forall x, 0 <= x -> x <= 1 ->
  Qabs (pow x 4%Z - x ^ 4) <= x ^ 4 * (1 # 4503599627370496).

(** The spec's wording of the displayed value before rounding, in exact
    arithmetic: [target * (1 - (1 - p)^4)] with [p = min(t / duration, 1)]. *)
Definition eased_exact (target duration t : Q) : Q :=
  target * (1 - (1 - Qmin (t / duration) 1) ^ 4).

(** The Standard Library's specification of IEEE 754 arithmetic
    ([SpecFloat], here at binary64: precision 53, emax 1024) is used to
    cross-check [fl] on concrete inputs: [SF2Q] reads a finite float as a
    rational and [SFofZ] is the float of an integer. *)
Definition SF2Q (f : spec_float) : Q :=
  match f with
  | S754_finite s m e => (if s then -1 else 1) * inject_Z (Zpos m) * pow2 e
  | _ => 0
  end.

Definition SFofZ (z : Z) : spec_float := binary_normalize 53 1024 z 0 false.

(* ================================================================= *)
(** ** TYPES *)

Record Donation := mkDonation {
  name : string;
  amount : Z;            (* an integer-valued number *)
  timestamp : string;
  receiptUrl : string
}.

(** The parsed body as [fetchDonations] reads it.  A property that is
    missing (or null) reads as [None]. *)
Record ApiResponse := mkApiResponse {
  data_success : option bool;
  data_donations : option (list Donation);
  data_error : option string
}.

Record Config := mkConfig {
  APPS_SCRIPT_URL : string;
  GOOGLE_FORM_URL : string;
  DONATION_GOAL : Z;
  REFRESH_MS : Z
}.

(* ================================================================= *)
(** ** CONFIG and DEMO DATA *)

Definition CONFIG : Config := {|
  APPS_SCRIPT_URL :=
    "https://script.google.com/macros/s/AKfycbyskWmGGiHqGGk8frH3sLakCFMm-MiHBz2m87FZCzJyaVg6CcCaCcDgghhsFtZzvDDmFA/exec";
  GOOGLE_FORM_URL :=
    "https://docs.google.com/spreadsheets/d/THIS_IS_YOUR_SHEET_ID/edit";
  DONATION_GOAL := 15000000;
  REFRESH_MS := 30000
|}.

Definition DEMO : list Donation := [
  mkDonation "Ahmad Fauzi" 1000000 "01 Mar 2025, 10:22" EmptyString;
  mkDonation "Siti Rahayu" 500000 "01 Mar 2025, 11:05" EmptyString;
  mkDonation "Budi Santoso" 250000 "01 Mar 2025, 12:14" EmptyString;
  mkDonation "Anonymous" 150000 "01 Mar 2025, 13:30" EmptyString;
  mkDonation "Dewi Lestari" 750000 "01 Mar 2025, 14:01" EmptyString
].

(* ================================================================= *)
(** ** Arrays are references

    A JavaScript array is a mutable object held by reference: [sort] works
    in place, and [setDonations(DEMO)] stores the very array [DEMO].  The
    heap maps a reference to the current contents of the array. *)

Definition loc := nat.
Definition Heap := list (list Donation).

Definition read (h : Heap) (a : loc) : list Donation := nth a h [].

Fixpoint heap_set (h : Heap) (a : loc) (v : list Donation) : Heap :=
  match h, a with
  | [], _ => []
  | _ :: t, O => v :: t
  | x :: t, S n => x :: heap_set t n v
  end.

(** A fresh array with the given contents. *)
Definition alloc (h : Heap) (v : list Donation) : Heap * loc :=
  (h ++ [v], length h).

(** [[...a]]: a new array with the elements of [a]. *)
Definition spread (h : Heap) (a : loc) : Heap * loc := alloc h (read h a).

(** [Array.prototype.sort(cmp)].  ECMA-262 requires the sort to be stable;
    with a consistent comparator the resulting order is then determined
    (lemma [stable_sort_unique]), so the insertion sort below stands for any
    conforming engine.  [cmp x y > 0] moves [x] behind [y]. *)
Fixpoint insert (cmp : Donation -> Donation -> Q) (x : Donation)
    (l : list Donation) : list Donation :=
  match l with
  | [] => [x]
  | y :: t => if Qle_bool (cmp x y) 0 then x :: y :: t
              else y :: insert cmp x t
  end.

Definition sort (cmp : Donation -> Donation -> Q) (l : list Donation)
    : list Donation :=
  fold_right (insert cmp) [] l.

(** The array is sorted in place and the same reference is returned. *)
Definition Array_sort (h : Heap) (a : loc) (cmp : Donation -> Donation -> Q)
    : Heap * loc :=
  (heap_set h a (sort cmp (read h a)), a).

(** [a.reduce(f, init)] *)
Definition reduce {B : Type} (f : B -> Donation -> B) (init : B)
    (l : list Donation) : B :=
  fold_left f l init.

(* ================================================================= *)
(** ** The aggregate computed by every render of App (lines 237-239) *)

Record Aggregate := mkAggregate {
  sorted : loc;
  total : Q;
  pct : Z
}.

(** [(a, b) => b.amount - a.amount] *)
Definition by_amount_desc (a b : Donation) : Q :=
  fsub (inject_Z (amount b)) (inject_Z (amount a)).

Definition aggregate (cfg : Config) (h : Heap) (donations : loc)
    : Heap * Aggregate :=
  let (h1, copy) := spread h donations in
  let (h2, sorted) := Array_sort h1 copy by_amount_desc in
  let total :=
    reduce (fun s d => fadd s (inject_Z (amount d))) 0 (read h2 sorted) in
  let pct :=
    Z.min 100
      (Math_round (fmul (fdiv total (inject_Z (DONATION_GOAL cfg))) 100)) in
  (h2, mkAggregate sorted total pct).


(** The exact sum of the amounts. *)
Definition sum_amounts (l : list Donation) : Z :=
  fold_right (fun d s => (amount d + s)%Z) 0%Z l.

Definition sum_abs_amounts (l : list Donation) : Z :=
  fold_right (fun d s => (Z.abs (amount d) + s)%Z) 0%Z l.

(** Descending by amount. *)
Definition desc (a b : Donation) : Prop := (amount b <= amount a)%Z.

(** The records with a given amount, in list order. *)
Definition with_amount (v : Z) (l : list Donation) : list Donation :=
  filter (fun d => (amount d =? v)%Z) l.

(** [s] is a stable descending rearrangement of [l]. *)
Definition stable_desc_sort_of (l s : list Donation) : Prop :=
  StronglySorted desc s /\ Permutation l s /\
  forall v, with_amount v s = with_amount v l.

(* ================================================================= *)
(** ** useCountUp

    The hook keeps [value] and the handle [rafRef.current]; the browser keeps
    the animation frame callbacks that were requested and not yet run or
    cancelled.  A callback is the closure [step], which captures [start],
    [target] and [duration] of the effect run that created it. *)

Record Closure := mkClosure {
  c_start : Q;
  c_target : Q;
  c_duration : Q
}.

Record CountUp := mkCountUp {
  value : Z;                          (* useState<number>(0) *)
  rafRef : option nat;                (* useRef<number | null>(null) *)
  deps : option (Q * Q);              (* [target, duration] of the last effect *)
  frames : list (nat * Closure);      (* pending animation frame callbacks *)
  next_handle : nat
}.

Definition setValue (v : Z) (h : CountUp) : CountUp :=
  mkCountUp v (rafRef h) (deps h) (frames h) (next_handle h).

Definition set_rafRef (r : option nat) (h : CountUp) : CountUp :=
  mkCountUp (value h) r (deps h) (frames h) (next_handle h).

Definition requestAnimationFrame (c : Closure) (h : CountUp) : nat * CountUp :=
  (next_handle h,
   mkCountUp (value h) (rafRef h) (deps h)
     (frames h ++ [(next_handle h, c)]) (S (next_handle h))).

Definition cancelAnimationFrame (id : nat) (h : CountUp) : CountUp :=
  mkCountUp (value h) (rafRef h) (deps h)
    (filter (fun f => negb (Nat.eqb (fst f) id)) (frames h)) (next_handle h).

(** [p] of a frame at time [now]. *)
Definition progress (c : Closure) (now : Q) : Q :=
  Math_min (fdiv (fsub now (c_start c)) (c_duration c)) 1.

Section Engine.

(** The engine's [Math.pow]. *)
Variable Math_pow : Q -> Z -> Q.

(** The value a frame at time [now] displays. *)
Definition eased_value (c : Closure) (now : Q) : Z :=
  let p := progress c now in
  let eased := fsub 1 (Math_pow (fsub 1 p) 4%Z) in
  Math_round (fmul eased (c_target c)).

(** [step(now)] *)
Definition step (c : Closure) (now : Q) (h : CountUp) : CountUp :=
  let p := progress c now in
  let h1 := setValue (eased_value c now) h in
  if Qle_bool 1 p then h1
  else let (id, h2) := requestAnimationFrame c h1 in set_rafRef (Some id) h2.

(** The effect body, run at time [now] (the value of [performance.now()]). *)
Definition effect (target duration now : Q) (h : CountUp) : CountUp :=
  let c := mkClosure now target duration in
  let (id, h1) := requestAnimationFrame c h in
  set_rafRef (Some id) h1.

(** The cleanup the effect returns. *)
Definition cleanup (h : CountUp) : CountUp :=
  match rafRef h with
  | Some id => cancelAnimationFrame id h
  | None => h
  end.

Definition same_deps (d : option (Q * Q)) (target duration : Q) : bool :=
  match d with
  | Some (t, u) => Qeq_bool t target && Qeq_bool u duration
  | None => false
  end.

Definition set_deps (d : option (Q * Q)) (h : CountUp) : CountUp :=
  mkCountUp (value h) (rafRef h) d (frames h) (next_handle h).

(** The hook on mount: state 0, a null ref, then the effect. *)
Definition mount (target duration now : Q) : CountUp :=
  set_deps (Some (target, duration))
    (effect target duration now (mkCountUp 0 None None [] O)).

(** A later render with [target] and [duration]: when a dependency changed,
    the previous cleanup runs and then the effect. *)
Definition rerender (target duration now : Q) (h : CountUp) : CountUp :=
  if same_deps (deps h) target duration then h
  else set_deps (Some (target, duration))
         (effect target duration now (cleanup h)).

(** The browser runs the callbacks that were pending when the frame began. *)
Definition frame (now : Q) (h : CountUp) : CountUp :=
  fold_left (fun h' f => step (snd f) now h') (frames h)
    (mkCountUp (value h) (rafRef h) (deps h) [] (next_handle h)).

(** The animation frames at the given times, in turn. *)
Definition run_frames (times : list Q) (h : CountUp) : CountUp :=
  fold_left (fun h' t => frame t h') times h.

(** The states the hook of a mounted component can be in. *)
Inductive reachable : CountUp -> Prop :=
| reach_mount target duration now : reachable (mount target duration now)
| reach_frame now h : reachable h -> reachable (frame now h)
| reach_rerender target duration now h :
    reachable h -> reachable (rerender target duration now h).

End Engine.

(** At most the callback named by [rafRef] is pending. *)
Definition at_most_current (h : CountUp) : Prop :=
  frames h = [] \/
  exists id c, frames h = [(id, c)] /\ rafRef h = Some id.

(** The callback of closure [c] is the one pending. *)
Definition running (c : Closure) (h : CountUp) : Prop :=
  exists id, frames h = [(id, c)].

(* ================================================================= *)
(** ** fetchDonations and the refresh effect *)

Record AppState := mkAppState {
  donations : loc;            (* useState<Donation[]>([]) *)
  loading : bool;             (* useState<boolean>(true) *)
  error : option string       (* useState<string | null>(null) *)
}.

Record World := mkWorld {
  heap : Heap;
  app : AppState;
  requests : list string      (* the URLs fetch was called with *)
}.

(** What can be thrown inside the try block. *)
Inductive exn :=
| NetworkError                (* fetch rejects *)
| HttpError (status : Z)      (* new Error(`HTTP ${res.status}`) *)
| SyntaxError                 (* res.json() rejects *)
| TypeError.                  (* a property of null is read *)

Inductive Body :=
| NotJson                     (* the text is not JSON *)
| JsonNull                    (* the JSON value null *)
| JsonData (data : ApiResponse).

Record Response := mkResponse {
  status : Z;
  body : Body
}.

(** [res.ok] *)
Definition ok (res : Response) : bool :=
  (200 <=? status res)%Z && (status res <=? 299)%Z.

Inductive FetchResult :=
| Rejected
| Resolved (res : Response).

(** The network: what the n-th request of the page, to a given URL, meets. *)
Definition Server := nat -> string -> FetchResult.

(** The ways a request can go.  The JSON value null has no properties to
    read and is classed with the malformed bodies. *)
Definition transport_failure (r : FetchResult) : Prop := r = Rejected.

Definition non_success_status (r : FetchResult) : Prop :=
  exists res, r = Resolved res /\ ok res = false.

Definition malformed_body (r : FetchResult) : Prop :=
  exists res, r = Resolved res /\ ok res = true /\
              (body res = NotJson \/ body res = JsonNull).

Definition success_with (r : FetchResult) (data : ApiResponse) : Prop :=
  exists res, r = Resolved res /\ ok res = true /\ body res = JsonData data.

(** The list a parsed body stands for: [data.donations ?? []]. *)
Definition donations_of (data : ApiResponse) : list Donation :=
  match data_donations data with
  | Some l => l
  | None => []
  end.

Inductive outcome (A : Type) :=
| Val (a : A)
| Throw (e : exn).
Arguments Val {A} a.
Arguments Throw {A} e.

Definition M (A : Type) := World -> outcome A * World.

Definition ret {A} (a : A) : M A := fun w => (Val a, w).

Definition bind {A B} (m : M A) (k : A -> M B) : M B :=
  fun w => match m w with
           | (Val a, w') => k a w'
           | (Throw e, w') => (Throw e, w')
           end.

Definition throw {A} (e : exn) : M A := fun w => (Throw e, w).

Definition try_catch {A} (m : M A) (handler : exn -> M A) : M A :=
  fun w => match m w with
           | (Val a, w') => (Val a, w')
           | (Throw e, w') => handler e w'
           end.

Definition try_finally {A} (m : M A) (fin : M unit) : M A :=
  fun w => match m w with
           | (r, w') => match fin w' with
                        | (Val _, w'') => (r, w'')
                        | (Throw e, w'') => (Throw e, w'')
                        end
           end.

Notation "x <- m ;; k" := (bind m (fun x => k))
  (at level 61, m at next level, right associativity).
Notation "m ;;; k" := (bind m (fun _ => k))
  (at level 61, right associativity).

Definition setDonations (a : loc) : M unit := fun w =>
  (Val tt, mkWorld (heap w)
             (mkAppState a (loading (app w)) (error (app w))) (requests w)).

Definition setLoading (b : bool) : M unit := fun w =>
  (Val tt, mkWorld (heap w)
             (mkAppState (donations (app w)) b (error (app w))) (requests w)).

Definition setError (e : option string) : M unit := fun w =>
  (Val tt, mkWorld (heap w)
             (mkAppState (donations (app w)) (loading (app w)) e) (requests w)).

Definition new_array (v : list Donation) : M loc := fun w =>
  let (h, a) := alloc (heap w) v in
  (Val a, mkWorld h (app w) (requests w)).

(** [await fetch(url)] *)
Definition fetch (server : Server) (url : string) : M Response := fun w =>
  let w' := mkWorld (heap w) (app w) (requests w ++ [url]) in
  match server (length (requests w)) url with
  | Rejected => (Throw NetworkError, w')
  | Resolved res => (Val res, w')
  end.

(** [await res.json()] *)
Definition json (res : Response) : M (option ApiResponse) :=
  match body res with
  | NotJson => throw SyntaxError
  | JsonNull => ret None
  | JsonData data => ret (Some data)
  end.

(** [data.donations ?? []].  Reading a property of null throws; the array
    of the parsed body, or the empty one, is a fresh object. *)
Definition donations_or_empty (data : option ApiResponse) : M loc :=
  match data with
  | None => throw TypeError
  | Some d => match data_donations d with
              | Some l => new_array l
              | None => new_array []
              end
  end.

(** [CONFIG.APPS_SCRIPT_URL === "YOUR_APPS_SCRIPT_URL"] *)
Definition isDemo (cfg : Config) : bool :=
  String.eqb (APPS_SCRIPT_URL cfg) "YOUR_APPS_SCRIPT_URL".

(** The module-level array [DEMO] is the first object of the heap. *)
Definition DEMO_loc : loc := O.

Definition generic_error : string :=
  "Could not load donation data. Will retry automatically.".

Definition fetchDonations (cfg : Config) (server : Server) : M unit :=
  if isDemo cfg then
    setDonations DEMO_loc ;;;
    setLoading false
  else
    try_finally
      (try_catch
         (res <- fetch server (APPS_SCRIPT_URL cfg) ;;
          (if negb (ok res) then throw (HttpError (status res)) else ret tt) ;;;
          data <- json res ;;
          arr <- donations_or_empty data ;;
          setDonations arr ;;;
          setError None)
         (fun e => setError (Some generic_error)))
      (setLoading false).

(** The world a failed request leaves: the error is set, the loading flag
    cleared, the request logged, and nothing else is touched. *)
Definition after_failure (url : string) (w : World) : World :=
  mkWorld (heap w)
    (mkAppState (donations (app w)) false (Some generic_error))
    (requests w ++ [url]).

(** The world a successful request leaves: a fresh array holds the list. *)
Definition after_success (url : string) (l : list Donation) (w : World) : World :=
  mkWorld (heap w ++ [l])
    (mkAppState (length (heap w)) false None)
    (requests w ++ [url]).

(** The state of App before its first effect: [DEMO], then the empty array
    of [useState<Donation[]>([])]. *)
Definition initial_world : World :=
  mkWorld [DEMO; []] (mkAppState 1%nat true None) [].

(** [n] runs of [fetchDonations], one after the other. *)
Fixpoint cycles (cfg : Config) (server : Server) (n : nat) : M unit :=
  match n with
  | O => ret tt
  | S k => fetchDonations cfg server ;;; cycles cfg server k
  end.

(** The refresh effect: one call at once, then one per tick of
    [setInterval(fetchDonations, CONFIG.REFRESH_MS)]. *)
Definition refresh (cfg : Config) (server : Server) (ticks : nat) : M unit :=
  fetchDonations cfg server ;;; cycles cfg server ticks.

(** The notice [{isDemo && <Alert>...}] is rendered. *)
Definition demo_notice (cfg : Config) : bool := isDemo cfg.

(** What App shows of the donations: the aggregate of the array in state. *)
Definition view (cfg : Config) (w : World) : Heap * Aggregate :=
  aggregate cfg (heap w) (donations (app w)).

(* ================================================================= *)
(** ** The rest of App: teardown, AnimatedTotal, the donor list, the lightbox *)

(** Unmounting the component that uses the hook runs the last cleanup. *)
Definition unmount (h : CountUp) : CountUp := cleanup h.

(** [AnimatedTotal]: a render calls [useCountUp(amount)], with the default
    duration of 1800. *)
Definition AnimatedTotal (amount now : Q) (h : CountUp) : CountUp :=
  rerender amount 1800 now h.

(** The list a request brings, when the try block runs to its end. *)
Definition received (r : FetchResult) : option (list Donation) :=
  match r with
  | Rejected => None
  | Resolved res =>
      if ok res then
        match body res with
        | JsonData data => Some (donations_of data)
        | _ => None
        end
      else None
  end.

(** The list of the latest of the requests [rs] that brought one. *)
Definition last_received (rs : list FetchResult) : option (list Donation) :=
  fold_left (fun acc r => match received r with
                          | Some l => Some l
                          | None => acc
                          end) rs None.

(** The donation array App displays. *)
Definition displayed (w : World) : list Donation :=
  read (heap w) (donations (app w)).

(** Overlapping requests.  [fetchDonations] is an async function and the
    interval does not wait for it: a call issues its request at once
    ([fetch] is called before the first await), and what it writes to the
    state it writes in one turn, after its last await, since no setter is
    called between the two awaits.  Calls whose requests are outstanding
    together may resume in any order. *)

(** The call of [fetch]: the request is on its way. *)
Definition issue (url : string) (w : World) : World :=
  mkWorld (heap w) (app w) (requests w ++ [url]).

(** The rest of the non-demo branch, once the request has settled as [r]
    and its body has been read. *)
Definition settle (r : FetchResult) : M unit :=
  try_finally
    (try_catch
       (res <- (match r with
                | Rejected => throw NetworkError
                | Resolved res => ret res
                end) ;;
        (if negb (ok res) then throw (HttpError (status res)) else ret tt) ;;;
        data <- json res ;;
        arr <- donations_or_empty data ;;
        setDonations arr ;;;
        setError None)
       (fun e => setError (Some generic_error)))
    (setLoading false).

(** The page: its world, the requests that are outstanding, and the
    requests that have settled, in the order they did. *)
Record Page := mkPage {
  world : World;
  outstanding : list nat;
  settled : list nat
}.

Inductive async_event :=
| Tick                 (* fetchDonations is called *)
| Settle (id : nat).   (* the call that issued request [id] resumes *)

Definition async_step (cfg : Config) (server : Server) (e : async_event)
    (pg : Page) : Page :=
  match e with
  | Tick =>
      if isDemo cfg then
        mkPage (snd (fetchDonations cfg server (world pg)))
          (outstanding pg) (settled pg)
      else
        mkPage (issue (APPS_SCRIPT_URL cfg) (world pg))
          (outstanding pg ++ [length (requests (world pg))]) (settled pg)
  | Settle id =>
      if existsb (Nat.eqb id) (outstanding pg) then
        mkPage (snd (settle (server id (APPS_SCRIPT_URL cfg)) (world pg)))
          (filter (fun i => negb (Nat.eqb id i)) (outstanding pg))
          (settled pg ++ [id])
      else pg            (* not outstanding: nothing settles *)
  end.

Definition async_run (cfg : Config) (server : Server)
    (es : list async_event) (pg : Page) : Page :=
  fold_left (fun pg' e => async_step cfg server e pg') es pg.

(** A page on which no request is outstanding. *)
Definition quiet (w : World) : Page := mkPage w [] [].

(** What the requests that settled met, in the order they settled. *)
Definition settlements (server : Server) (url : string) (pg : Page)
    : list FetchResult :=
  map (fun id => server id url) (settled pg).

(** What happens to App between two paints: a run of [fetchDonations], or a
    render, whose [[...donations].sort(...)] allocates and sorts a copy. *)
Inductive event :=
| Refresh
| Render.

Definition render (cfg : Config) (w : World) : World :=
  mkWorld (fst (view cfg w)) (app w) (requests w).

Definition handle (cfg : Config) (server : Server) (e : event) (w : World)
    : World :=
  match e with
  | Refresh => snd (fetchDonations cfg server w)
  | Render => render cfg w
  end.

Definition run_events (cfg : Config) (server : Server) (es : list event)
    (w : World) : World :=
  fold_left (fun w' e => handle cfg server e w') es w.

(** The array in state and [DEMO] are objects of the heap. *)
Definition valid_state (w : World) : Prop :=
  (donations (app w) < length (heap w))%nat /\ (DEMO_loc < length (heap w))%nat.

(** [DonorCard]: the props App passes, and what the card derives from them.
    [medals] is the array of the three medal glyphs. *)
Inductive medal := Gold | Silver | Bronze.

Definition medals : list medal := [Gold; Silver; Bronze].

Record DonorCardProps := mkDonorCardProps {
  donor : Donation;
  rank : nat;
  delay : nat
}.

(** [rank < 3 && medals[rank]] *)
Definition card_medal (c : DonorCardProps) : option medal :=
  if (rank c <? 3)%nat then nth_error medals (rank c) else None.

(** A string is truthy when it is not empty. *)
Definition truthy (s : string) : bool := negb (String.eqb s EmptyString).

(** [donor.receiptUrl && <button onClick=...>]: the URL the button opens. *)
Definition receipt_button (c : DonorCardProps) : option string :=
  if truthy (receiptUrl (donor c)) then Some (receiptUrl (donor c)) else None.

(** [sorted.map((d, i) => <DonorCard donor={d} rank={i} delay={i * 60} />)] *)
Fixpoint cards_from (i : nat) (l : list Donation) : list DonorCardProps :=
  match l with
  | [] => []
  | d :: t => mkDonorCardProps d i (i * 60) :: cards_from (S i) t
  end.

Definition donor_cards (l : list Donation) : list DonorCardProps :=
  cards_from O l.

(** The donor section: skeletons while loading, the empty state, or cards. *)
Inductive DonorSection :=
| Skeletons (n : nat)
| EmptyState
| Cards (cards : list DonorCardProps).

Definition donor_section (loading : bool) (l : list Donation) : DonorSection :=
  if loading then Skeletons 4
  else if (length l =? 0)%nat then EmptyState
  else Cards (donor_cards l).

(** The donor section of App as rendered from a world. *)
Definition App_donor_section (cfg : Config) (w : World) : DonorSection :=
  donor_section (loading (app w))
    (read (fst (view cfg w)) (sorted (snd (view cfg w)))).

(** The lightbox: [lightboxSrc], set by a receipt button, reset by the
    dialog's [onOpenChange]. *)
Inductive ui_event :=
| ClickReceipt (c : DonorCardProps)   (* on a card that renders the button *)
| CloseDialog.

Definition lightbox_step (src : option string) (e : ui_event) : option string :=
  match e with
  | ClickReceipt c =>
      match receipt_button c with
      | Some url => Some url        (* setLightboxSrc(donor.receiptUrl) *)
      | None => src                 (* no button to click *)
      end
  | CloseDialog => None             (* setLightboxSrc(null) *)
  end.

(** [open={!!lightboxSrc}] *)
Definition dialog_open (src : option string) : bool :=
  match src with
  | Some s => truthy s
  | None => false
  end.

(* ================================================================= *)
(** * Facts about JavaScript numbers *)

(** ** Powers of two *)
Lemma pow2_pos e : 0 < pow2 e.
Proof. unfold pow2. apply Qpower_0_lt. reflexivity. Qed.

Lemma pow2_add a b : pow2 (a + b) == pow2 a * pow2 b.
Proof. unfold pow2. apply Qpower_plus. discriminate. Qed.

Lemma pow2_succ e : pow2 (e + 1) == 2 * pow2 e.
Proof. rewrite pow2_add. unfold pow2 at 2. simpl. ring. Qed.

Lemma pow2_le a b : (a <= b)%Z -> pow2 a <= pow2 b.
Proof. intros H. unfold pow2. apply Qpower_le_compat_l; [exact H | discriminate]. Qed.

Lemma pow2_lt a b : (a < b)%Z -> pow2 a < pow2 b.
Proof.
  intros H. apply Qlt_le_trans with (pow2 (a + 1)).
  - rewrite pow2_succ. pose proof (pow2_pos a). lra.
  - apply pow2_le. lia.
Qed.

Lemma pow2_Z n : (0 <= n)%Z -> pow2 n == inject_Z (2 ^ n).
Proof. intros H. unfold pow2. rewrite Zpower_Qpower by exact H. reflexivity. Qed.

Lemma pow2_lt_inv a b : pow2 a < pow2 b -> (a < b)%Z.
Proof.
  intros H. destruct (Z_lt_le_dec a b) as [L | L]; [exact L |].
  apply pow2_le in L. lra.
Qed.

(** ** Binades *)
Lemma Zlog2_Q n : (0 < n)%Z ->
  pow2 (Z.log2 n) <= inject_Z n /\ inject_Z n < 2 * pow2 (Z.log2 n).
Proof.
  intros H. destruct (Z.log2_spec n H) as [L U].
  pose proof (Z.log2_nonneg n) as Hn.
  split.
  - rewrite pow2_Z by exact Hn. rewrite <- Zle_Qle. exact L.
  - rewrite <- pow2_succ. rewrite pow2_Z by lia. rewrite <- Zlt_Qlt.
    replace (Z.log2 n + 1)%Z with (Z.succ (Z.log2 n)) by lia. exact U.
Qed.

Lemma binade_adjust (x A B N D : Q) :
  0 < A -> 0 < B -> A * B <= N -> N < 2 * (A * B) ->
  B <= D -> D < 2 * B -> x * D == N ->
  (A <= x -> x < 2 * A) /\ (x < A -> A * (1 # 2) <= x).
Proof.
  intros PA PB LN UN LD UD HX. split; intros H.
  - destruct (Qlt_le_dec x (2 * A)) as [K | K]; [exact K | exfalso].
    assert (2 * A * D <= x * D) by (apply Qmult_le_compat_r; lra).
    assert (2 * A * B <= 2 * A * D) by (apply Qmult_le_l; lra).
    lra.
  - destruct (Qlt_le_dec x (A * (1 # 2))) as [K | K]; [exfalso | exact K].
    assert (x * D <= A * (1 # 2) * D) by (apply Qmult_le_compat_r; lra).
    assert (A * D < A * (2 * B)) by (apply Qmult_lt_l; lra).
    lra.
Qed.

Lemma ilog2_spec x : 0 < x ->
  pow2 (ilog2 x) <= x /\ x < pow2 (ilog2 x + 1).
Proof.
  intros Hx. destruct x as [n d]. unfold ilog2. cbn [Qnum Qden].
  assert (Hn : (0 < n)%Z).
  { unfold Qlt in Hx. simpl in Hx. lia. }
  set (ln := Z.log2 n). set (ld := Z.log2 (Zpos d)).
  destruct (Zlog2_Q n Hn) as [Ln Un]. fold ln in Ln, Un.
  destruct (Zlog2_Q (Zpos d) (Pos2Z.is_pos d)) as [Ld Ud]. fold ld in Ld, Ud.
  assert (HA : pow2 ln == pow2 (ln - ld) * pow2 ld).
  { rewrite <- pow2_add. replace (ln - ld + ld)%Z with ln by lia. reflexivity. }
  assert (Hxd : (n # d) * inject_Z (Zpos d) == inject_Z n).
  { unfold Qeq, Qmult, inject_Z. simpl. rewrite Pos.mul_1_r. lia. }
  destruct (binade_adjust (n # d) (pow2 (ln - ld)) (pow2 ld) (inject_Z n) (inject_Z (Zpos d)))
    as [C1 C2]; try (apply pow2_pos); try lra.
  destruct (Qle_bool (pow2 (ln - ld)) (n # d)) eqn:E.
  - apply Qle_bool_iff in E. split; [exact E |].
    rewrite pow2_succ. exact (C1 E).
  - assert (E' : n # d < pow2 (ln - ld)).
    { destruct (Qlt_le_dec (n # d) (pow2 (ln - ld))) as [K | K]; [exact K |].
      apply Qle_bool_iff in K. congruence. }
    replace (ln - ld - 1 + 1)%Z with (ln - ld)%Z by lia.
    split; [| exact E'].
    assert (HA2 : pow2 (ln - ld) == 2 * pow2 (ln - ld - 1)).
    { rewrite <- pow2_succ. replace (ln - ld - 1 + 1)%Z with (ln - ld)%Z by lia. reflexivity. }
    specialize (C2 E'). lra.
Qed.

Lemma ilog2_unique x e : pow2 e <= x -> x < pow2 (e + 1) -> ilog2 x = e.
Proof.
  intros L U. assert (Hx : 0 < x) by (pose proof (pow2_pos e); lra).
  destruct (ilog2_spec x Hx) as [L' U'].
  assert (ilog2 x < e + 1)%Z by (apply pow2_lt_inv; lra).
  assert (e < ilog2 x + 1)%Z by (apply pow2_lt_inv; lra).
  lia.
Qed.

Lemma ilog2_mono x y : 0 < x -> x <= y -> (ilog2 x <= ilog2 y)%Z.
Proof.
  intros Hx Hxy. destruct (ilog2_spec x Hx) as [L _].
  destruct (ilog2_spec y) as [_ U]; [lra |].
  assert (ilog2 x < ilog2 y + 1)%Z by (apply pow2_lt_inv; lra). lia.
Qed.

(** ** Rounding to an integer *)
Lemma rne_cases x :
  let f := Qfloor x in
  (x - inject_Z f < 1 # 2 /\ rne x = f) \/
  (1 # 2 < x - inject_Z f /\ rne x = (f + 1)%Z) \/
  (x - inject_Z f == 1 # 2 /\ rne x = if Z.even f then f else (f + 1)%Z).
Proof.
  intros f. unfold rne. fold f.
  destruct (Qcompare_spec (x - inject_Z f) (1 # 2)) as [E | E | E]; auto.
Qed.

Lemma Qfloor_bounds x : inject_Z (Qfloor x) <= x /\ x < inject_Z (Qfloor x) + 1.
Proof.
  split; [apply Qfloor_le |].
  pose proof (Qlt_floor x) as H. rewrite inject_Z_plus in H. exact H.
Qed.

Lemma rne_bounds x :
  inject_Z (rne x) - (1 # 2) <= x /\ x <= inject_Z (rne x) + (1 # 2).
Proof.
  destruct (Qfloor_bounds x) as [L U].
  destruct (rne_cases x) as [[H E] | [[H E] | [H E]]]; rewrite E;
    try destruct (Z.even (Qfloor x));
    try rewrite inject_Z_plus; change (inject_Z 1) with 1; cbv zeta in H; lra.
Qed.

Lemma rne_comp x y : x == y -> rne x = rne y.
Proof.
  intros H. unfold rne. rewrite (Qfloor_comp x y H).
  assert (E : x - inject_Z (Qfloor y) == y - inject_Z (Qfloor y)) by (rewrite H; reflexivity).
  rewrite (Qcompare_comp _ _ E (1 # 2) (1 # 2) (Qeq_refl _)). reflexivity.
Qed.

Lemma rne_Z z : rne (inject_Z z) = z.
Proof.
  destruct (rne_cases (inject_Z z)) as [[H E] | [[H E] | [H E]]];
    rewrite Qfloor_Z in *; cbv zeta in H; try exact E; exfalso; lra.
Qed.

Lemma rne_mono x y : x <= y -> (rne x <= rne y)%Z.
Proof.
  intros H. pose proof (Qfloor_resp_le x y H) as HF.
  destruct (Qfloor_bounds x) as [Lx Ux]. destruct (Qfloor_bounds y) as [Ly Uy].
  destruct (rne_cases x) as [[Hx Ex] | [[Hx Ex] | [Hx Ex]]];
  destruct (rne_cases y) as [[Hy Ey] | [[Hy Ey] | [Hy Ey]]];
  cbv zeta in Hx, Hy; rewrite Ex, Ey;
  destruct (Z.eq_dec (Qfloor x) (Qfloor y)) as [E | NE];
  try rewrite E in *;
  repeat match goal with |- context [Z.even ?a] => destruct (Z.even a) end;
  try lia; exfalso; lra.
Qed.

(** ** Rounding to a number *)
Lemma fl_comp x y : x == y -> fl x = fl y.
Proof. intros H. unfold fl. rewrite (Qred_complete x y H). reflexivity. Qed.

Lemma fl_zero x : x == 0 -> fl x = 0.
Proof. intros H. rewrite (fl_comp x 0 H). reflexivity. Qed.

Lemma fl_scaled x e :
  pow2 e <= Qabs x -> Qabs x < pow2 (e + 1) ->
  fl x == inject_Z (rne (x / pow2 (e - 52))) * pow2 (e - 52).
Proof.
  intros L U. unfold fl, fl_canon.
  pose proof (Qred_correct x) as R.
  pose proof (pow2_pos e) as Pe.
  destruct (Qeq_bool (Qred x) 0) eqn:Z0.
  - apply Qeq_bool_iff in Z0. rewrite R in Z0. rewrite Z0 in L.
    exfalso. change (Qabs 0) with 0 in L. lra.
  - assert (E : ilog2 (Qabs (Qred x)) = e).
    { apply ilog2_unique; rewrite R; assumption. }
    rewrite E. rewrite Qred_correct.
    rewrite (rne_comp (Qred x / pow2 (e - 52)) (x / pow2 (e - 52))); [reflexivity |].
    rewrite R. reflexivity.
Qed.

Lemma binade_exists x : ~ x == 0 ->
  exists e, pow2 e <= Qabs x /\ Qabs x < pow2 (e + 1).
Proof.
  intros H. exists (ilog2 (Qabs x)). apply ilog2_spec.
  pose proof (Qabs_nonneg x) as N.
  destruct (Qeq_dec (Qabs x) 0) as [E | E]; [| lra].
  exfalso. apply H. revert E. apply Qabs_case; intros; lra.
Qed.

Lemma pow2_split e : pow2 e == pow2 52 * pow2 (e - 52).
Proof. rewrite <- pow2_add. replace (52 + (e - 52))%Z with e by lia. reflexivity. Qed.

Lemma fl_between x e a b :
  pow2 e <= Qabs x -> Qabs x < pow2 (e + 1) ->
  inject_Z a * pow2 (e - 52) <= x -> x <= inject_Z b * pow2 (e - 52) ->
  inject_Z a * pow2 (e - 52) <= fl x /\ fl x <= inject_Z b * pow2 (e - 52).
Proof.
  intros L U La Ub. rewrite (fl_scaled x e L U).
  pose proof (pow2_pos (e - 52)) as PP. set (P := pow2 (e - 52)) in *.
  assert (Ha : (a <= rne (x / P))%Z).
  { rewrite <- (rne_Z a). apply rne_mono. apply Qle_shift_div_l; assumption. }
  assert (Hb : (rne (x / P) <= b)%Z).
  { rewrite <- (rne_Z b). apply rne_mono. apply Qle_shift_div_r; assumption. }
  rewrite Zle_Qle in Ha, Hb.
  split; apply Qmult_le_compat_r; lra.
Qed.

Lemma fl_pos_bounds x e :
  pow2 e <= x -> x < pow2 (e + 1) -> pow2 e <= fl x /\ fl x <= pow2 (e + 1).
Proof.
  intros L U. pose proof (pow2_pos e) as Pe.
  assert (A : Qabs x == x) by (apply Qabs_pos; lra).
  assert (E1 : pow2 e == inject_Z (2 ^ 52) * pow2 (e - 52)).
  { rewrite <- pow2_Z by lia. apply pow2_split. }
  assert (E2 : pow2 (e + 1) == inject_Z (2 ^ 53) * pow2 (e - 52)).
  { rewrite <- pow2_Z by lia. rewrite <- pow2_add. replace (53 + (e - 52))%Z with (e + 1)%Z by lia. reflexivity. }
  destruct (fl_between x e (2 ^ 52) (2 ^ 53)) as [B1 B2];
    rewrite ?A; rewrite <- ?E1, <- ?E2; try lra.
Qed.

Lemma fl_neg_bounds x e :
  pow2 e <= - x -> - x < pow2 (e + 1) -> - pow2 (e + 1) <= fl x /\ fl x <= - pow2 e.
Proof.
  intros L U. pose proof (pow2_pos e) as Pe.
  assert (A : Qabs x == - x) by (apply Qabs_neg; lra).
  assert (E1 : - pow2 e == inject_Z (- 2 ^ 52) * pow2 (e - 52)).
  { rewrite inject_Z_opp. rewrite <- pow2_Z by lia. rewrite (pow2_split e) at 1. ring. }
  assert (E2 : - pow2 (e + 1) == inject_Z (- 2 ^ 53) * pow2 (e - 52)).
  { rewrite inject_Z_opp. rewrite <- pow2_Z by lia.
    setoid_replace (- pow2 53 * pow2 (e - 52)) with (- (pow2 53 * pow2 (e - 52))) by ring.
    rewrite <- pow2_add. replace (53 + (e - 52))%Z with (e + 1)%Z by lia. reflexivity. }
  destruct (fl_between x e (- 2 ^ 53) (- 2 ^ 52)) as [B1 B2];
    rewrite ?A; rewrite <- ?E1, <- ?E2; try lra.
Qed.

Lemma fl_nonneg x : 0 <= x -> 0 <= fl x.
Proof.
  intros H. destruct (Qeq_dec x 0) as [E | E].
  - rewrite (fl_zero x E). lra.
  - destruct (binade_exists x E) as [e [L U]].
    rewrite Qabs_pos in L, U by exact H.
    destruct (fl_pos_bounds x e L U) as [B _]. pose proof (pow2_pos e). lra.
Qed.

Lemma fl_nonpos x : x <= 0 -> fl x <= 0.
Proof.
  intros H. destruct (Qeq_dec x 0) as [E | E].
  - rewrite (fl_zero x E). lra.
  - destruct (binade_exists x E) as [e [L U]].
    rewrite Qabs_neg in L, U by exact H.
    destruct (fl_neg_bounds x e L U) as [_ B]. pose proof (pow2_pos e). lra.
Qed.

Lemma fl_pos x : 0 < x -> 0 < fl x.
Proof.
  intros H. assert (E : ~ x == 0) by lra.
  destruct (binade_exists x E) as [e [L U]].
  rewrite Qabs_pos in L, U by lra.
  destruct (fl_pos_bounds x e L U) as [B _]. pose proof (pow2_pos e). lra.
Qed.

Lemma fl_neg x : x < 0 -> fl x < 0.
Proof.
  intros H. assert (E : ~ x == 0) by lra.
  destruct (binade_exists x E) as [e [L U]].
  rewrite Qabs_neg in L, U by lra.
  destruct (fl_neg_bounds x e L U) as [_ B]. pose proof (pow2_pos e). lra.
Qed.

Lemma fl_mono_same_binade x y e :
  pow2 e <= Qabs x -> Qabs x < pow2 (e + 1) ->
  pow2 e <= Qabs y -> Qabs y < pow2 (e + 1) ->
  x <= y -> fl x <= fl y.
Proof.
  intros Lx Ux Ly Uy H.
  rewrite (fl_scaled x e Lx Ux), (fl_scaled y e Ly Uy).
  pose proof (pow2_pos (e - 52)) as PP.
  apply Qmult_le_compat_r; [| lra].
  rewrite <- Zle_Qle. apply rne_mono.
  apply Qmult_le_compat_r; [exact H |].
  apply Qlt_le_weak, Qinv_lt_0_compat, PP.
Qed.

Lemma fl_mono x y : x <= y -> fl x <= fl y.
Proof.
  intros H.
  destruct (Qlt_le_dec 0 x) as [Px | Nx].
  - (* 0 < x <= y *)
    assert (Ex : ~ x == 0) by lra. assert (Ey : ~ y == 0) by lra.
    destruct (binade_exists x Ex) as [ex [Lx Ux]].
    destruct (binade_exists y Ey) as [ey [Ly Uy]].
    assert (Ax : Qabs x == x) by (apply Qabs_pos; lra).
    assert (Ay : Qabs y == y) by (apply Qabs_pos; lra).
    destruct (Z.eq_dec ex ey) as [E | NE].
    + subst ey. apply (fl_mono_same_binade x y ex); assumption.
    + rewrite Ax in Lx, Ux. rewrite Ay in Ly, Uy.
      assert (ex < ey + 1)%Z by (apply pow2_lt_inv; lra).
      assert (K : pow2 (ex + 1) <= pow2 ey) by (apply pow2_le; lia).
      destruct (fl_pos_bounds x ex Lx Ux) as [_ B1].
      destruct (fl_pos_bounds y ey Ly Uy) as [B2 _]. lra.
  - destruct (Qlt_le_dec y 0) as [Ny | Py].
    + (* x <= y < 0 *)
      assert (Ex : ~ x == 0) by lra. assert (Ey : ~ y == 0) by lra.
      destruct (binade_exists x Ex) as [ex [Lx Ux]].
      destruct (binade_exists y Ey) as [ey [Ly Uy]].
      assert (Ax : Qabs x == - x) by (apply Qabs_neg; lra).
      assert (Ay : Qabs y == - y) by (apply Qabs_neg; lra).
      destruct (Z.eq_dec ex ey) as [E | NE].
      * subst ey. apply (fl_mono_same_binade x y ex); assumption.
      * rewrite Ax in Lx, Ux. rewrite Ay in Ly, Uy.
        assert (ey < ex + 1)%Z by (apply pow2_lt_inv; lra).
        assert (K : pow2 (ey + 1) <= pow2 ex) by (apply pow2_le; lia).
        destruct (fl_neg_bounds x ex Lx Ux) as [_ B1].
        destruct (fl_neg_bounds y ey Ly Uy) as [B2 _]. lra.
    + pose proof (fl_nonpos x Nx). pose proof (fl_nonneg y Py). lra.
Qed.

Lemma fl_abs_err x e :
  pow2 e <= Qabs x -> Qabs x < pow2 (e + 1) ->
  Qabs (fl x - x) <= pow2 (e - 53).
Proof.
  intros L U. rewrite (fl_scaled x e L U).
  pose proof (pow2_pos (e - 52)) as PP.
  assert (E : pow2 (e - 52) == 2 * pow2 (e - 53)).
  { rewrite <- pow2_succ. replace (e - 53 + 1)%Z with (e - 52)%Z by lia. reflexivity. }
  destruct (rne_bounds (x / pow2 (e - 52))) as [B1 B2].
  set (P := pow2 (e - 52)) in *. set (m := inject_Z (rne (x / P))) in *.
  assert (X : x == x / P * P) by (field; lra).
  assert (K1 : (m - (1 # 2)) * P <= x / P * P) by (apply Qmult_le_compat_r; lra).
  assert (K2 : x / P * P <= (m + (1 # 2)) * P) by (apply Qmult_le_compat_r; lra).
  apply Qabs_Qle_condition. split; lra.
Qed.

Lemma fl_rel_err x : Qabs (fl x - x) <= Qabs x * (1 # 9007199254740992).
Proof.
  destruct (Qeq_dec x 0) as [E | E].
  - rewrite (fl_zero x E). rewrite E. discriminate.
  - destruct (binade_exists x E) as [e [L U]].
    apply Qle_trans with (pow2 (e - 53)); [apply fl_abs_err; assumption |].
    assert (K : pow2 e == pow2 53 * pow2 (e - 53)).
    { rewrite <- pow2_add. replace (53 + (e - 53))%Z with e by lia. reflexivity. }
    assert (V : pow2 53 == 9007199254740992) by reflexivity.
    rewrite V in K. pose proof (pow2_pos (e - 53)). lra.
Qed.

Lemma fl_int z : (Z.abs z <= 2 ^ 53)%Z -> fl (inject_Z z) == inject_Z z.
Proof.
  intros H. destruct (Z.eq_dec z 0) as [-> | NZ]; [reflexivity |].
  assert (E : ~ inject_Z z == 0).
  { intros K. apply NZ. unfold Qeq in K. simpl in K. lia. }
  destruct (binade_exists _ E) as [e [L U]].
  assert (A : Qabs (inject_Z z) == inject_Z (Z.abs z)) by reflexivity.
  destruct (Z_lt_le_dec (Z.abs z) (2 ^ 53)) as [S | B].
  - assert (He : (e < 53)%Z).
    { apply pow2_lt_inv. rewrite (pow2_Z 53) by lia. rewrite A in L.
      apply Qle_lt_trans with (1 := L). rewrite <- Zlt_Qlt. exact S. }
    rewrite (fl_scaled _ e L U).
    assert (P : / pow2 (e - 52) == inject_Z (2 ^ (52 - e))).
    { rewrite <- pow2_Z by lia. unfold pow2. rewrite <- Qpower_opp. 
      replace (- (e - 52))%Z with (52 - e)%Z by lia. reflexivity. }
    rewrite (rne_comp _ (inject_Z (z * 2 ^ (52 - e)))).
    + rewrite rne_Z. rewrite inject_Z_mult, <- P. field.
      pose proof (pow2_pos (e - 52)). lra.
    + unfold Qdiv. rewrite P, <- inject_Z_mult. reflexivity.
  - assert (Z.abs z = 2 ^ 53)%Z by lia.
    assert (C : z = (2 ^ 53)%Z \/ z = (- 2 ^ 53)%Z) by lia.
    destruct C as [-> | ->]; vm_compute; reflexivity.
Qed.

Lemma fl_sign_pos x : 0 < fl x <-> 0 < x.
Proof.
  split; intros H.
  - destruct (Qlt_le_dec 0 x) as [K | K]; [exact K |].
    pose proof (fl_nonpos x K). lra.
  - apply fl_pos, H.
Qed.

(** ** Agreement with the IEEE 754 specification on sample inputs *)

(** The quotient and product of the progress percentage, for every total
    that is a multiple of 75,000 up to the goal (all exact .5 ties are among
    them). *)
Lemma binary64_agrees_on_percentages :
  forallb (fun k =>
    let t := (75000 * Z.of_nat k)%Z in
    Qeq_bool
      (SF2Q (SFmul 53 1024 (SFdiv 53 1024 (SFofZ t) (SFofZ 15000000)) (SFofZ 100)))
      (fmul (fdiv (inject_Z t) 15000000) 100))
    (seq 0 201) = true.
Proof. vm_compute. reflexivity. Qed.

(** The sums around 2^53. *)
Lemma binary64_agrees_on_large_sums :
  forallb (fun k =>
    let a := (2 ^ 53 - 4 + Z.of_nat k)%Z in
    Qeq_bool
      (SF2Q (SFadd 53 1024 (SFadd 53 1024 (SFofZ a) (SFofZ 1)) (SFofZ 3)))
      (fadd (fadd (inject_Z a) 1) 3))
    (seq 0 9) = true.
Proof. vm_compute. reflexivity. Qed.

(** The progress [p] of a frame and [1 - p], one frame every 16 ms of an
    animation of 1800 ms. *)
Lemma binary64_agrees_on_progress :
  forallb (fun k =>
    let t := (16 * Z.of_nat k)%Z in
    let p := SFdiv 53 1024 (SFsub 53 1024 (SFofZ t) (SFofZ 0)) (SFofZ 1800) in
    Qeq_bool (SF2Q (SFsub 53 1024 (SFofZ 1) p))
             (fsub 1 (fdiv (fsub (inject_Z t) 0) 1800)))
    (seq 0 113) = true.
Proof. vm_compute. reflexivity. Qed.

(* ================================================================= *)
(** * Facts about arrays *)

(** ** The heap *)

Lemma read_alloc_old h v a : (a < length h)%nat -> read (fst (alloc h v)) a = read h a.
Proof. intros H. unfold read, alloc. simpl. apply app_nth1. exact H. Qed.

Lemma read_alloc_new h v : read (fst (alloc h v)) (snd (alloc h v)) = v.
Proof.
  unfold read, alloc. simpl. rewrite app_nth2 by lia.
  rewrite Nat.sub_diag. reflexivity.
Qed.

Lemma heap_set_length h a v : length (heap_set h a v) = length h.
Proof.
  revert a. induction h as [| x t IH]; intros a; [reflexivity |].
  destruct a; simpl; [reflexivity | rewrite IH; reflexivity].
Qed.

Lemma read_heap_set_same h a v : (a < length h)%nat -> read (heap_set h a v) a = v.
Proof.
  unfold read. revert a. induction h as [| x t IH]; intros a H; simpl in H; [lia |].
  destruct a; simpl; [reflexivity | apply IH; lia].
Qed.

Lemma read_heap_set_other h a b v : a <> b -> read (heap_set h a v) b = read h b.
Proof.
  unfold read. revert a b. induction h as [| x t IH]; intros a b H; [reflexivity |].
  destruct a, b; simpl; try reflexivity; try congruence.
  apply IH. congruence.
Qed.

(** ** The comparator *)

Lemma fl_le_0 x : fl x <= 0 <-> x <= 0.
Proof.
  split; intros H.
  - destruct (Qlt_le_dec 0 x) as [K | K]; [| exact K].
    pose proof (fl_pos x K). lra.
  - apply fl_nonpos, H.
Qed.

Lemma by_amount_desc_le x y :
  Qle_bool (by_amount_desc x y) 0 = true <-> (amount y <= amount x)%Z.
Proof.
  unfold by_amount_desc, fsub. rewrite Qle_bool_iff, fl_le_0.
  rewrite Zle_Qle. split; intros H; lra.
Qed.

Lemma insert_by_amount x y t :
  insert by_amount_desc x (y :: t) =
  if (amount y <=? amount x)%Z then x :: y :: t
  else y :: insert by_amount_desc x t.
Proof.
  simpl. destruct (Qle_bool (by_amount_desc x y) 0) eqn:E;
    destruct (Z.leb_spec (amount y) (amount x)) as [L | L]; try reflexivity.
  - apply by_amount_desc_le in E. lia.
  - apply by_amount_desc_le in L. congruence.
Qed.

(** ** The sort: a permutation, descending, stable *)

Lemma insert_perm x l : Permutation (x :: l) (insert by_amount_desc x l).
Proof.
  induction l as [| y t IH]; [apply Permutation_refl |].
  rewrite insert_by_amount. destruct (amount y <=? amount x)%Z.
  - apply Permutation_refl.
  - apply perm_trans with (y :: x :: t); [apply perm_swap |].
    apply perm_skip, IH.
Qed.

Lemma sort_perm l : Permutation l (sort by_amount_desc l).
Proof.
  induction l as [| x t IH]; [apply perm_nil |].
  apply perm_trans with (x :: sort by_amount_desc t).
  - apply perm_skip, IH.
  - apply insert_perm.
Qed.

Lemma insert_sorted x l :
  StronglySorted desc l -> StronglySorted desc (insert by_amount_desc x l).
Proof.
  induction l as [| y t IH]; intros S.
  - simpl. constructor; constructor.
  - rewrite insert_by_amount. inversion S as [| ? ? St Ft]; subst.
    destruct (Z.leb_spec (amount y) (amount x)) as [L | L].
    + constructor; [exact S |]. constructor; [exact L |].
      revert Ft. apply Forall_impl. unfold desc. intros z Hz. lia.
    + constructor; [apply IH, St |].
      apply (Permutation_Forall (insert_perm x t)).
      constructor; [unfold desc; lia | exact Ft].
Qed.

Lemma sort_sorted l : StronglySorted desc (sort by_amount_desc l).
Proof.
  induction l as [| x t IH]; [constructor |]. apply insert_sorted, IH.
Qed.

Lemma insert_with_amount v x l :
  with_amount v (insert by_amount_desc x l) = with_amount v (x :: l).
Proof.
  induction l as [| y t IH]; [reflexivity |].
  rewrite insert_by_amount.
  destruct (Z.leb_spec (amount y) (amount x)) as [L | L]; [reflexivity |].
  unfold with_amount in *. simpl in *. rewrite IH.
  destruct (Z.eqb_spec (amount x) v) as [Ex | Ex];
    destruct (Z.eqb_spec (amount y) v) as [Ey | Ey]; try reflexivity.
  lia.
Qed.

Lemma sort_with_amount v l :
  with_amount v (sort by_amount_desc l) = with_amount v l.
Proof.
  induction l as [| x t IH]; [reflexivity |].
  simpl. rewrite insert_with_amount. unfold with_amount in *. simpl.
  rewrite IH. reflexivity.
Qed.

Lemma sort_stable_desc l : stable_desc_sort_of l (sort by_amount_desc l).
Proof.
  split; [apply sort_sorted |]. split; [apply sort_perm |].
  intros v. apply sort_with_amount.
Qed.

(** Two descending lists with the same records of every amount, in the same
    order, are equal: a stable descending sort has one possible result. *)
Lemma stable_desc_unique s1 : forall s2,
  StronglySorted desc s1 -> StronglySorted desc s2 ->
  (forall v, with_amount v s1 = with_amount v s2) -> s1 = s2.
Proof.
  induction s1 as [| x t1 IH]; intros s2 S1 S2 W.
  - destruct s2 as [| y t2]; [reflexivity |].
    specialize (W (amount y)). unfold with_amount in W. simpl in W.
    rewrite Z.eqb_refl in W. discriminate.
  - destruct s2 as [| y t2].
    + specialize (W (amount x)). unfold with_amount in W. simpl in W.
      rewrite Z.eqb_refl in W. discriminate.
    + inversion S1 as [| ? ? St1 F1]; inversion S2 as [| ? ? St2 F2]; subst.
      assert (In1 : forall l d v, In d (with_amount v l) -> In d l /\ amount d = v).
      { intros l d v Hd. unfold with_amount in Hd. apply filter_In in Hd.
        destruct Hd as [Hi He]. apply Z.eqb_eq in He. auto. }
      assert (Exy : amount x = amount y).
      { assert (Hx : In x (with_amount (amount x) (y :: t2))).
        { rewrite <- W. unfold with_amount. simpl. rewrite Z.eqb_refl. left; reflexivity. }
        assert (Hy : In y (with_amount (amount y) (x :: t1))).
        { rewrite W. unfold with_amount. simpl. rewrite Z.eqb_refl. left; reflexivity. }
        apply In1 in Hx. apply In1 in Hy. destruct Hx as [Hx _], Hy as [Hy _].
        rewrite Forall_forall in F1, F2. unfold desc in F1, F2.
        assert (amount x <= amount y)%Z.
        { destruct Hx as [-> | Hx]; [lia | apply F2, Hx]. }
        assert (amount y <= amount x)%Z.
        { destruct Hy as [-> | Hy]; [lia | apply F1, Hy]. }
        lia. }
      assert (Hh : x = y /\ forall v, with_amount v t1 = with_amount v t2).
      { pose proof (W (amount x)) as W0. unfold with_amount in W0 |- *. simpl in W0.
        rewrite <- Exy in W0. rewrite Z.eqb_refl in W0. injection W0 as Hxy Ht.
        split; [exact Hxy |]. intros v. specialize (W v). simpl in W.
        rewrite <- Exy in W.
        destruct (Z.eqb_spec (amount x) v) as [Ev | Ev]; [| exact W].
        subst v. exact Ht. }
      destruct Hh as [-> Ht]. f_equal. apply IH; assumption.
Qed.

Lemma stable_sort_unique l s :
  stable_desc_sort_of l s -> s = sort by_amount_desc l.
Proof.
  intros [S [_ W]]. apply stable_desc_unique; [exact S | apply sort_sorted |].
  intros v. rewrite W, sort_with_amount. reflexivity.
Qed.

(** Descending arrangements of the same amounts are the same sequence. *)
Lemma desc_amounts_unique l1 : forall l2 : list Z,
  StronglySorted Z.ge l1 -> StronglySorted Z.ge l2 ->
  Permutation l1 l2 -> l1 = l2.
Proof.
  induction l1 as [| x t1 IH]; intros l2 S1 S2 P.
  - apply Permutation_nil in P. congruence.
  - destruct l2 as [| y t2]; [apply Permutation_sym, Permutation_nil in P; discriminate |].
    inversion S1 as [| ? ? St1 F1]; inversion S2 as [| ? ? St2 F2]; subst.
    rewrite Forall_forall in F1, F2.
    assert (Hx : In x (y :: t2)) by (apply (Permutation_in _ P); left; reflexivity).
    assert (Hy : In y (x :: t1)) by (apply (Permutation_in _ (Permutation_sym P)); left; reflexivity).
    assert (x = y).
    { assert (y >= x)%Z by (destruct Hx as [-> | Hx]; [lia | apply F2, Hx]).
      assert (x >= y)%Z by (destruct Hy as [-> | Hy]; [lia | apply F1, Hy]).
      lia. }
    subst y. f_equal. apply IH; try assumption.
    apply Permutation_cons_inv with x. exact P.
Qed.

Lemma sorted_amounts l :
  StronglySorted desc l -> StronglySorted Z.ge (map amount l).
Proof.
  induction 1 as [| x t St IH F]; simpl; constructor; [exact IH |].
  rewrite Forall_map. revert F. apply Forall_impl. unfold desc. intros. lia.
Qed.

Lemma sort_amounts_perm l1 l2 :
  Permutation l1 l2 ->
  map amount (sort by_amount_desc l1) = map amount (sort by_amount_desc l2).
Proof.
  intros P. apply desc_amounts_unique; try apply sorted_amounts, sort_sorted.
  apply Permutation_map.
  apply perm_trans with l1; [apply Permutation_sym, sort_perm |].
  apply perm_trans with l2; [exact P | apply sort_perm].
Qed.

(* ================================================================= *)
(** * The aggregate *)

Lemma aggregate_eq cfg h d :
  aggregate cfg h d =
  let s := sort by_amount_desc (read h d) in
  let t := reduce (fun s d => fadd s (inject_Z (amount d))) 0 s in
  (heap_set (h ++ [read h d]) (length h) s,
   mkAggregate (length h) t
     (Z.min 100
        (Math_round (fmul (fdiv t (inject_Z (DONATION_GOAL cfg))) 100)))).
Proof.
  unfold aggregate, spread, alloc, Array_sort.
  assert (R : read (h ++ [read h d]) (length h) = read h d).
  { exact (read_alloc_new h (read h d)). }
  rewrite R. rewrite read_heap_set_same; [reflexivity |].
  rewrite length_app. simpl. lia.
Qed.

Lemma aggregate_sorted cfg h d :
  read (fst (aggregate cfg h d)) (sorted (snd (aggregate cfg h d))) =
  sort by_amount_desc (read h d).
Proof.
  rewrite aggregate_eq. simpl. apply read_heap_set_same.
  rewrite length_app. simpl. lia.
Qed.

Lemma aggregate_total cfg h d :
  total (snd (aggregate cfg h d)) =
  reduce (fun s d => fadd s (inject_Z (amount d))) 0
    (sort by_amount_desc (read h d)).
Proof. rewrite aggregate_eq. reflexivity. Qed.

Lemma aggregate_frame cfg h d a :
  (a < length h)%nat -> read (fst (aggregate cfg h d)) a = read h a.
Proof.
  intros H. rewrite aggregate_eq. simpl.
  rewrite read_heap_set_other by lia.
  exact (read_alloc_old h (read h d) a H).
Qed.

(** ** The total *)

Lemma sum_amounts_perm l1 l2 :
  Permutation l1 l2 -> sum_amounts l1 = sum_amounts l2.
Proof. induction 1; simpl in *; lia. Qed.

Lemma sum_abs_amounts_perm l1 l2 :
  Permutation l1 l2 -> sum_abs_amounts l1 = sum_abs_amounts l2.
Proof. induction 1; simpl in *; lia. Qed.

Lemma sum_abs_amounts_nonneg l : (0 <= sum_abs_amounts l)%Z.
Proof. induction l; simpl; lia. Qed.

Lemma reduce_exact l : forall (acc : Q) (z : Z),
  acc == inject_Z z ->
  (Z.abs z + sum_abs_amounts l <= 2 ^ 53)%Z ->
  reduce (fun s d => fadd s (inject_Z (amount d))) acc l ==
  inject_Z (z + sum_amounts l).
Proof.
  unfold reduce. induction l as [| x t IH]; intros acc z Hacc Hb;
    cbn [fold_left sum_amounts sum_abs_amounts fold_right] in *.
  - rewrite Z.add_0_r. exact Hacc.
  - pose proof (sum_abs_amounts_nonneg t) as Ht.
    fold (sum_abs_amounts t) in Hb. fold (sum_amounts t).
    rewrite (IH _ (z + amount x)%Z).
    + rewrite Z.add_assoc. reflexivity.
    + unfold fadd. rewrite (fl_comp _ (inject_Z (z + amount x))).
      * apply fl_int. lia.
      * rewrite Hacc, inject_Z_plus. reflexivity.
    + lia.
Qed.

Lemma reduce_amounts l : forall acc,
  reduce (fun s d => fadd s (inject_Z (amount d))) acc l =
  fold_left (fun s a => fadd s (inject_Z a)) (map amount l) acc.
Proof.
  unfold reduce. induction l as [| x t IH]; intros acc; simpl; [reflexivity |].
  apply IH.
Qed.


(** ** The progress percentage *)

Lemma Math_round_bounds x :
  inject_Z (Math_round x) <= x + (1 # 2) /\ x - (1 # 2) < inject_Z (Math_round x).
Proof.
  unfold Math_round. destruct (Qfloor_bounds (x + (1 # 2))) as [L U].
  split; lra.
Qed.

Lemma Math_round_mono x y : x <= y -> (Math_round x <= Math_round y)%Z.
Proof. intros H. unfold Math_round. apply Qfloor_resp_le. lra. Qed.

Lemma Math_round_Z z : Math_round (inject_Z z) = z.
Proof.
  unfold Math_round. destruct (Qfloor_bounds (inject_Z z + (1 # 2))) as [L U].
  assert (A : (Qfloor (inject_Z z + (1 # 2)) < z + 1)%Z).
  { rewrite Zlt_Qlt, inject_Z_plus. change (inject_Z 1) with 1. lra. }
  assert (B : (z - 1 < Qfloor (inject_Z z + (1 # 2)))%Z).
  { rewrite Zlt_Qlt. unfold Z.sub. rewrite inject_Z_plus, inject_Z_opp.
    change (inject_Z 1) with 1. lra. }
  lia.
Qed.

Lemma Math_round_ge z x : inject_Z z <= x -> (z <= Math_round x)%Z.
Proof.
  intros H. apply Z.le_trans with (Math_round (inject_Z z)).
  - rewrite Math_round_Z. apply Z.le_refl.
  - apply Math_round_mono, H.
Qed.

Lemma Math_round_comp x y : x == y -> Math_round x = Math_round y.
Proof. intros H. unfold Math_round. apply Qfloor_comp. rewrite H. reflexivity. Qed.


Lemma fl_err_bounds x : 0 <= x ->
  x - x * (1 # 9007199254740992) <= fl x /\
  fl x <= x + x * (1 # 9007199254740992).
Proof.
  intros H. pose proof (fl_rel_err x) as E.
  rewrite (Qabs_pos x H) in E. apply Qabs_Qle_condition in E.
  destruct E as [E1 E2]. split; lra.
Qed.

(** Division by the goal, as lra reads it. *)
Lemma div_goal t : t / 15000000 == t * (1 # 15000000).
Proof. reflexivity. Qed.


Lemma fl_1 : fl 1 = 1.
Proof. reflexivity. Qed.





(** At an exact tie the double product can lie just below it: a total of
    4,275,000 is 28.5 percent of the goal, the code computes
    28.499999999999996 and displays 28. *)
Lemma pct_tie_example :
  fmul (fdiv 4275000 15000000) 100 == 8022036836253695 # 281474976710656 /\
  Math_round (fmul (fdiv 4275000 15000000) 100) = 28%Z /\
  100 * 4275000 / 15000000 == 57 # 2.
Proof. vm_compute. repeat split; reflexivity. Qed.

(* ================================================================= *)
(** * The claims about the aggregate *)

(** C1.  For every donation array, the array [sorted] of the aggregate is
    sorted descending by amount and is a stable permutation of the input
    (the records of any one amount keep their relative order); it is a new
    array, and the input array, like every other array that existed, holds
    the same records afterwards. *)
Theorem aggregate_sorted_stable_and_pure (cfg : Config) (h : Heap) (donations : loc) :
  (donations < length h)%nat ->
  let h' := fst (aggregate cfg h donations) in
  let s := sorted (snd (aggregate cfg h donations)) in
  stable_desc_sort_of (read h donations) (read h' s) /\
  s <> donations /\
  read h' donations = read h donations /\
  (forall a, (a < length h)%nat -> read h' a = read h a).
Proof.
  intros H h' s. unfold h', s. rewrite aggregate_sorted.
  split; [apply sort_stable_desc |].
  split; [rewrite aggregate_eq; simpl; lia |].
  split; [apply aggregate_frame, H |].
  intros a Ha. apply aggregate_frame, Ha.
Qed.

Lemma aggregate_sorted_stable_and_pure_witness :
  let h' := fst (aggregate CONFIG [DEMO] 0%nat) in
  let s := sorted (snd (aggregate CONFIG [DEMO] 0%nat)) in
  stable_desc_sort_of DEMO (read h' s) /\
  s <> 0%nat /\
  read h' 0%nat = DEMO /\
  (forall a, (a < 1)%nat -> read h' a = read [DEMO] a).
Proof.
  apply (aggregate_sorted_stable_and_pure CONFIG [DEMO] 0%nat).
  simpl. lia.
Defined.

(** C2, as stated, fails: with the amounts 2^53, 1 and 1 the total is 2^53,
    not the exact sum 2^53 + 2. *)
Lemma total_exact_counterexample :
  let l := [mkDonation "A" 9007199254740992 EmptyString EmptyString;
            mkDonation "B" 1 EmptyString EmptyString; mkDonation "C" 1 EmptyString EmptyString] in
  ~ total (snd (aggregate CONFIG [l] 0%nat)) == inject_Z (sum_amounts l).
Proof.
  intros l H. vm_compute in H. discriminate H.
Qed.

(** C2, amended.  For every donation array whose amounts have absolute
    values summing to at most 2^53, the total equals the exact integer sum
    of the amounts; and for every donation array the total is the same for
    any permutation of the input. *)
Theorem total_exact_when_safe_and_order_independent (cfg : Config) (h : Heap) (donations : loc) :
  ((sum_abs_amounts (read h donations) <= 2 ^ 53)%Z ->
   total (snd (aggregate cfg h donations)) ==
   inject_Z (sum_amounts (read h donations))) /\
  (forall (h2 : Heap) (donations2 : loc),
     Permutation (read h donations) (read h2 donations2) ->
     total (snd (aggregate cfg h2 donations2)) =
     total (snd (aggregate cfg h donations))).
Proof.
  split.
  - intros B. rewrite aggregate_total.
    rewrite (reduce_exact _ 0 0%Z); [| reflexivity |].
    + rewrite (sum_amounts_perm _ _ (sort_perm (read h donations))). reflexivity.
    + rewrite <- (sum_abs_amounts_perm _ _ (sort_perm (read h donations))).
      simpl. exact B.
  - intros h2 d2 P. rewrite !aggregate_total, !reduce_amounts.
    rewrite (sort_amounts_perm _ _ P). reflexivity.
Qed.

Lemma total_exact_when_safe_and_order_independent_witness :
  total (snd (aggregate CONFIG [DEMO] 0%nat)) == inject_Z (sum_amounts DEMO) /\
  total (snd (aggregate CONFIG [[]; rev DEMO] 1%nat)) =
  total (snd (aggregate CONFIG [DEMO] 0%nat)).
Proof.
  destruct (total_exact_when_safe_and_order_independent CONFIG [DEMO] 0%nat)
    as [E P].
  split.
  - apply E. vm_compute. discriminate.
  - apply (P [[]; rev DEMO] 1%nat). apply Permutation_rev.
Defined.



(* ================================================================= *)
(** * useCountUp *)

(** ** The easing curve *)

Lemma pow4 x : x ^ 4 == x * x * (x * x).
Proof. reflexivity. Qed.

Lemma pow4_mono x y : 0 <= x -> x <= y -> x ^ 4 <= y ^ 4.
Proof.
  intros H0 H1. rewrite !pow4.
  assert (A : 0 <= x * x <= y * y).
  { split; [apply Qmult_le_0_compat; assumption |].
    apply Qmult_le_compat_nonneg; split; assumption. }
  apply Qmult_le_compat_nonneg; exact A.
Qed.

Lemma pow4_unit_interval x : 0 <= x -> x <= 1 -> 0 <= x ^ 4 /\ x ^ 4 <= 1.
Proof.
  intros H0 H1. split.
  - apply Qle_trans with (0 ^ 4); [discriminate | apply pow4_mono; lra].
  - apply Qle_trans with (1 ^ 4); [apply pow4_mono; assumption | discriminate].
Qed.

(** On the unit interval the fourth power moves at most four times as far
    as its argument. *)
Lemma pow4_lipschitz x y delta :
  0 <= x -> x <= 1 -> 0 <= y -> y <= 1 ->
  Qabs (x - y) <= delta -> Qabs (x ^ 4 - y ^ 4) <= 4 * delta.
Proof.
  intros X0 X1 Y0 Y1 D. apply Qabs_Qle_condition in D. destruct D as [D1 D2].
  set (m := (x + y) * (x * x + y * y)).
  assert (M : 0 <= m /\ m <= 4) by (unfold m; split; nra).
  assert (E : x ^ 4 - y ^ 4 == (x - y) * m) by (rewrite !pow4; unfold m; ring).
  rewrite E. apply Qabs_Qle_condition.
  destruct M as [M0 M4]. clearbody m. split; nra.
Qed.

Lemma progress_le_1 c now : progress c now <= 1.
Proof. unfold progress, Math_min. apply Q.le_min_r. Qed.

Lemma progress_mono c now1 now2 :
  0 < c_duration c -> now1 <= now2 -> progress c now1 <= progress c now2.
Proof.
  intros D H. unfold progress, Math_min. apply Q.min_le_compat_r.
  unfold fdiv, fsub. apply fl_mono.
  apply Qmult_le_compat_r.
  - apply fl_mono. lra.
  - apply Qlt_le_weak, Qinv_lt_0_compat, D.
Qed.

Lemma progress_start c : progress c (c_start c) == 0.
Proof.
  unfold progress, Math_min, fdiv, fsub.
  rewrite (fl_zero (c_start c - c_start c)) by ring.
  rewrite (fl_zero (0 / c_duration c)) by (unfold Qdiv; ring).
  reflexivity.
Qed.

Lemma progress_done c now :
  0 < c_duration c -> c_duration c <= fsub now (c_start c) ->
  progress c now == 1.
Proof.
  intros D H. unfold progress, Math_min. apply Q.min_r.
  unfold fdiv. rewrite <- fl_1 at 1. apply fl_mono.
  apply Qle_shift_div_l; [exact D | lra].
Qed.

Lemma progress_nonneg c now :
  0 < c_duration c -> c_start c <= now -> 0 <= progress c now.
Proof.
  intros D H. rewrite <- (progress_start c). apply progress_mono; assumption.
Qed.

Lemma progress_nonpos c now :
  0 < c_duration c -> now <= c_start c -> progress c now <= 0.
Proof.
  intros D H. rewrite <- (progress_start c). apply progress_mono; assumption.
Qed.

(** [1 - p], as the code computes it. *)
Lemma one_minus_unit p :
  0 <= p -> p <= 1 -> 0 <= fsub 1 p /\ fsub 1 p <= 1.
Proof.
  intros H0 H1. unfold fsub. split.
  - apply fl_nonneg. lra.
  - rewrite <- fl_1 at 2. apply fl_mono. lra.
Qed.

(** The quotient [(now - start) / duration] as the code computes it, against
    the exact one. *)
Lemma elapsed_ratio_close t d :
  0 <= t -> 0 < d ->
  t / d - 3 * (t / d) * (1 # 9007199254740992) <= fdiv (fl t) d /\
  fdiv (fl t) d <= t / d + 3 * (t / d) * (1 # 9007199254740992).
Proof.
  intros T D. unfold fdiv.
  assert (I : 0 < / d) by (apply Qinv_lt_0_compat, D).
  destruct (fl_err_bounds t T) as [A1 A2].
  assert (E0 : 0 <= fl t) by (apply fl_nonneg, T).
  assert (S0 : 0 <= fl t / d) by (unfold Qdiv; apply Qmult_le_0_compat; lra).
  destruct (fl_err_bounds (fl t / d) S0) as [B1 B2].
  assert (R0 : 0 <= t / d) by (unfold Qdiv; apply Qmult_le_0_compat; lra).
  assert (C1 : (t - t * (1 # 9007199254740992)) * / d <= fl t * / d)
    by (apply Qmult_le_compat_r; lra).
  assert (C2 : fl t * / d <= (t + t * (1 # 9007199254740992)) * / d)
    by (apply Qmult_le_compat_r; lra).
  assert (F1 : (t - t * (1 # 9007199254740992)) * / d ==
               t / d - t / d * (1 # 9007199254740992)) by (unfold Qdiv; ring).
  assert (F2 : (t + t * (1 # 9007199254740992)) * / d ==
               t / d + t / d * (1 # 9007199254740992)) by (unfold Qdiv; ring).
  rewrite F1 in C1. rewrite F2 in C2.
  change (fl t * / d) with (fl t / d) in C1, C2.
  set (r := t / d) in *. set (s := fl t / d) in *. clearbody r s.
  split; lra.
Qed.

Section Easing.

Variable Math_pow : Q -> Z -> Q.

(** The displayed value is a function of [p]. *)
Lemma eased_value_comp c t1 t2 :
  progress c t1 == progress c t2 ->
  eased_value Math_pow c t1 = eased_value Math_pow c t2.
Proof.
  intros H. unfold eased_value, fsub at 2 4.
  rewrite (fl_comp (1 - progress c t1) (1 - progress c t2)) by (rewrite H; reflexivity).
  reflexivity.
Qed.

Lemma eased_value_mono c t1 t2 :
  pow4_monotone Math_pow ->
  0 <= c_target c -> 0 <= progress c t1 -> progress c t1 <= progress c t2 ->
  (eased_value Math_pow c t1 <= eased_value Math_pow c t2)%Z.
Proof.
  intros M T P0 H. unfold eased_value.
  pose proof (progress_le_1 c t1) as L1. pose proof (progress_le_1 c t2) as L2.
  apply Math_round_mono. unfold fmul. apply fl_mono.
  apply Qmult_le_compat_r; [| exact T].
  unfold fsub at 1 3. apply fl_mono.
  assert (K : Math_pow (fsub 1 (progress c t2)) 4%Z <=
              Math_pow (fsub 1 (progress c t1)) 4%Z).
  { apply M.
    - apply one_minus_unit; lra.
    - unfold fsub. apply fl_mono. lra.
    - apply one_minus_unit; lra. }
  lra.
Qed.

Lemma eased_value_at_0 c now :
  pow4_at_1 Math_pow -> progress c now == 0 ->
  eased_value Math_pow c now = 0%Z.
Proof.
  intros P1 H. unfold pow4_at_1 in P1. unfold eased_value, fsub at 2.
  rewrite (fl_comp (1 - progress c now) 1) by (rewrite H; ring).
  rewrite fl_1. unfold fsub, fmul.
  rewrite (fl_zero (1 - Math_pow 1 4%Z)) by (rewrite P1; ring).
  rewrite (fl_zero (0 * c_target c)) by ring. reflexivity.
Qed.

Lemma eased_value_at_1 c now (target : Z) :
  pow4_at_0 Math_pow ->
  c_target c == inject_Z target -> is_number (inject_Z target) ->
  progress c now == 1 -> eased_value Math_pow c now = target.
Proof.
  intros P0 T N H. unfold pow4_at_0 in P0. unfold eased_value, fsub at 2.
  rewrite (fl_zero (1 - progress c now)) by (rewrite H; ring).
  unfold fsub, fmul.
  rewrite (fl_comp (1 - Math_pow 0 4%Z) 1) by (rewrite P0; ring).
  rewrite fl_1.
  rewrite (fl_comp (1 * c_target c) (inject_Z target)) by (rewrite T; ring).
  rewrite (Math_round_comp _ _ N). apply Math_round_Z.
Qed.

(** From the start on the value stays between 0 and the target; this needs
    of [Math.pow] only that it keeps the unit interval. *)
Lemma eased_value_in_range c now (target : Z) :
  pow4_unit Math_pow ->
  c_target c == inject_Z target -> is_number (inject_Z target) ->
  (0 <= target)%Z -> 0 <= progress c now ->
  (0 <= eased_value Math_pow c now <= target)%Z.
Proof.
  intros U T N T0 P0. unfold eased_value.
  pose proof (progress_le_1 c now) as P1.
  destruct (one_minus_unit _ P0 P1) as [X0 X1].
  destruct (U _ X0 X1) as [W0 W1].
  assert (G : 0 <= fsub 1 (Math_pow (fsub 1 (progress c now)) 4%Z) /\
              fsub 1 (Math_pow (fsub 1 (progress c now)) 4%Z) <= 1).
  { apply one_minus_unit; assumption. }
  destruct G as [G0 G1].
  set (g := fsub 1 (Math_pow (fsub 1 (progress c now)) 4%Z)) in *.
  assert (Tq : 0 <= c_target c) by (rewrite T, <- (Zle_Qle 0); exact T0).
  split.
  - apply Math_round_ge. unfold fmul. apply fl_nonneg.
    apply Qmult_le_0_compat; assumption.
  - apply Z.le_trans with (Math_round (inject_Z target));
      [apply Math_round_mono | rewrite Math_round_Z; apply Z.le_refl].
    unfold fmul. apply Qle_trans with (fl (inject_Z target));
      [apply fl_mono | unfold is_number in N; rewrite N; apply Qle_refl].
    rewrite <- T. clearbody g. nra.
Qed.

(** Before the start [1 - p] is at least 1, and so is its power. *)
Lemma eased_value_nonpos c now :
  pow4_above Math_pow -> 0 <= c_target c -> progress c now <= 0 ->
  (eased_value Math_pow c now <= 0)%Z.
Proof.
  intros A T P. unfold eased_value.
  assert (X : 1 <= fsub 1 (progress c now)).
  { unfold fsub. rewrite <- fl_1 at 1. apply fl_mono. lra. }
  pose proof (A _ X) as W.
  assert (G : fsub 1 (Math_pow (fsub 1 (progress c now)) 4%Z) <= 0).
  { unfold fsub at 1. apply fl_nonpos. lra. }
  set (g := fsub 1 (Math_pow (fsub 1 (progress c now)) 4%Z)) in *.
  change 0%Z with (Math_round 0). apply Math_round_mono.
  unfold fmul. apply fl_nonpos. clearbody g. nra.
Qed.

(** The distance to the exact value of the spec's formula: half a unit for
    [Math.round], and at most 2^-48 of the target for the six roundings and
    the error of [Math.pow]. *)
Lemma eased_value_error c now :
  pow4_unit Math_pow -> pow4_accurate Math_pow ->
  0 <= c_target c -> 0 < c_duration c -> c_start c <= now ->
  Qabs (inject_Z (eased_value Math_pow c now) -
        eased_exact (c_target c) (c_duration c) (now - c_start c))
  <= (1 # 2) + c_target c * (1 # 281474976710656).
Proof.
  intros U A T D S. unfold eased_value, eased_exact, progress, Math_min.
  set (t := now - c_start c). assert (T0 : 0 <= t) by (unfold t; lra).
  set (d := c_duration c) in *. set (tau := c_target c) in *.
  unfold fsub at 3. fold t.
  destruct (elapsed_ratio_close t d T0 D) as [Q1 Q2].
  assert (R0 : 0 <= t / d).
  { unfold Qdiv. apply Qmult_le_0_compat; [exact T0 |].
    apply Qlt_le_weak, Qinv_lt_0_compat, D. }
  assert (Q0 : 0 <= fdiv (fl t) d).
  { unfold fdiv. apply fl_nonneg. unfold Qdiv.
    apply Qmult_le_0_compat; [apply fl_nonneg, T0 |].
    apply Qlt_le_weak, Qinv_lt_0_compat, D. }
  set (r := t / d) in *. set (q := fdiv (fl t) d) in *.
  (* p against P *)
  assert (P : 0 <= Qmin q 1 /\ Qmin q 1 <= 1 /\
              0 <= Qmin r 1 /\ Qmin r 1 <= 1 /\
              Qabs (Qmin q 1 - Qmin r 1) <= 3 * (1 # 9007199254740992)).
  { clearbody r q.
    destruct (Q.min_spec q 1) as [[Hq Eq] | [Hq Eq]];
    destruct (Q.min_spec r 1) as [[Hr Er] | [Hr Er]];
    rewrite Eq, Er; repeat split; try lra;
    apply Qabs_Qle_condition; split; lra. }
  destruct P as (p0 & p1 & P0 & P1 & PP).
  set (p := Qmin q 1) in *. set (PX := Qmin r 1) in *.
  apply Qabs_Qle_condition in PP. destruct PP as [PP1 PP2].
  (* x = fl (1 - p) against X = 1 - P *)
  destruct (one_minus_unit p p0 p1) as [x0 x1].
  assert (XE : fsub 1 p - (1 - p) <= 1 # 9007199254740992 /\
               - (1 # 9007199254740992) <= fsub 1 p - (1 - p)).
  { unfold fsub. destruct (fl_err_bounds (1 - p)) as [E1 E2]; [lra |].
    split; lra. }
  destruct XE as [XE1 XE2].
  set (x := fsub 1 p) in *.
  assert (XX : Qabs (x - (1 - PX)) <= 4 * (1 # 9007199254740992)).
  { apply Qabs_Qle_condition. split; lra. }
  pose proof (pow4_lipschitz x (1 - PX) _ x0 x1 ltac:(lra) ltac:(lra) XX) as L.
  apply Qabs_Qle_condition in L. destruct L as [L1 L2].
  (* w = Math.pow(x, 4) *)
  destruct (U x x0 x1) as [w0 w1].
  pose proof (A x x0 x1) as AW.
  destruct (pow4_unit_interval x x0 x1) as [y0 y1].
  apply Qabs_Qle_condition in AW. destruct AW as [AW1 AW2].
  set (w := Math_pow x 4%Z) in *.
  set (x4 := x ^ 4) in *. set (X4 := (1 - PX) ^ 4) in *.
  (* g = fl (1 - w) *)
  destruct (one_minus_unit w w0 w1) as [g0 g1].
  assert (GE : fsub 1 w - (1 - w) <= 1 # 9007199254740992 /\
               - (1 # 9007199254740992) <= fsub 1 w - (1 - w)).
  { unfold fsub. destruct (fl_err_bounds (1 - w)) as [E1 E2]; [lra |].
    split; lra. }
  destruct GE as [GE1 GE2].
  set (g := fsub 1 w) in *.
  (* y = fl (g * target) *)
  assert (GT : 0 <= g * tau) by (apply Qmult_le_0_compat; assumption).
  destruct (fl_err_bounds (g * tau) GT) as [Y1 Y2].
  destruct (Math_round_bounds (fmul g tau)) as [V1 V2].
  unfold fmul in *. set (y := fl (g * tau)) in *.
  set (v := inject_Z (Math_round y)) in *.
  clearbody v y g w x4 X4 x p PX q r t.
  apply Qabs_Qle_condition. split; nra.
Qed.

(** ** The hook as a state machine *)

Lemma frame_idle now h : frames h = [] -> frame Math_pow now h = h.
Proof. intros H. destruct h. simpl in H. subst. reflexivity. Qed.

Lemma frame_running c now h :
  running c h ->
  value (frame Math_pow now h) = eased_value Math_pow c now /\
  (1 <= progress c now -> frames (frame Math_pow now h) = []) /\
  (progress c now < 1 -> running c (frame Math_pow now h)).
Proof.
  intros [id F]. unfold frame. rewrite F. simpl. unfold step.
  destruct (Qle_bool 1 (progress c now)) eqn:E.
  - apply Qle_bool_iff in E. simpl.
    split; [reflexivity |]. split; [reflexivity |]. intros K. lra.
  - assert (E' : progress c now < 1).
    { destruct (Qlt_le_dec (progress c now) 1) as [K | K]; [exact K |].
      apply Qle_bool_iff in K. congruence. }
    simpl. split; [reflexivity |]. split; [intros K; lra |].
    intros _. eexists. reflexivity.
Qed.

Lemma run_frames_idle times h :
  frames h = [] -> run_frames Math_pow times h = h.
Proof.
  unfold run_frames. induction times as [| t ts IH]; intros F; simpl; [reflexivity |].
  rewrite (frame_idle t h F). apply IH, F.
Qed.

Lemma run_frames_snoc times now h :
  run_frames Math_pow (times ++ [now]) h =
  frame Math_pow now (run_frames Math_pow times h).
Proof. unfold run_frames. rewrite fold_left_app. reflexivity. Qed.

(** While the animation runs every frame displays the eased value of its
    time; once a frame reached [p = 1] no callback is left and the value
    stays, which is the eased value of any later time. *)
Lemma run_frames_running c now : forall times h,
  0 < c_duration c -> running c h -> Forall (fun t => t <= now) times ->
  value (run_frames Math_pow (times ++ [now]) h) = eased_value Math_pow c now.
Proof.
  induction times as [| t ts IH]; intros h D R F.
  - simpl. apply (frame_running c now h R).
  - inversion F as [| ? ? Ht Fts]; subst.
    change (run_frames Math_pow ((t :: ts) ++ [now]) h)
      with (run_frames Math_pow (ts ++ [now]) (frame Math_pow t h)).
    destruct (frame_running c t h R) as [V [Stop Go]].
    destruct (Qlt_le_dec (progress c t) 1) as [K | K].
    + apply IH; [exact D | apply Go, K | exact Fts].
    + rewrite run_frames_idle by (apply Stop, K). rewrite V.
      apply eased_value_comp.
      pose proof (progress_le_1 c t). pose proof (progress_le_1 c now).
      pose proof (progress_mono c t now D Ht). lra.
Qed.

Lemma mount_running target duration now :
  running (mkClosure now target duration) (mount target duration now).
Proof. exists O. reflexivity. Qed.

Lemma reachable_at_most_current h : reachable Math_pow h -> at_most_current h.
Proof.
  induction 1 as [target duration now | now h R IH | target duration now h R IH].
  - right. exists O, (mkClosure now target duration). split; reflexivity.
  - destruct IH as [F | [id [c [F Ref]]]].
    + rewrite (frame_idle now h F). left. exact F.
    + unfold frame. rewrite F. simpl. unfold step.
      destruct (Qle_bool 1 (progress c now)); simpl.
      * left. reflexivity.
      * right. eexists. eexists. split; reflexivity.
  - unfold rerender. destruct (same_deps (deps h) target duration); [exact IH |].
    right. unfold effect, cleanup. simpl.
    destruct IH as [F | [id [c [F Ref]]]].
    + destruct (rafRef h); simpl; rewrite F; simpl;
        eexists; eexists; split; reflexivity.
    + rewrite Ref. simpl. rewrite F. simpl. rewrite Nat.eqb_refl. simpl.
      eexists. eexists. split; reflexivity.
Qed.

(** After a render whose dependencies changed, the only pending callback is
    the new [step]. *)
Lemma rerender_running target duration now h :
  at_most_current h -> same_deps (deps h) target duration = false ->
  running (mkClosure now target duration) (rerender target duration now h) /\
  value (rerender target duration now h) = value h.
Proof.
  intros I C. unfold rerender. rewrite C. unfold effect, cleanup. simpl.
  destruct I as [F | [id [c [F Ref]]]].
  - destruct (rafRef h); simpl; rewrite F; simpl; split; try reflexivity;
      eexists; reflexivity.
  - rewrite Ref. simpl. rewrite F. simpl. rewrite Nat.eqb_refl. simpl.
    split; [eexists; reflexivity | reflexivity].
Qed.

(** C4, amended.  For every non-negative integer target and positive
    duration, and whatever the engine's [Math.pow] is: the value displayed
    by the frame at time [now] (after any earlier frames) is
    [Math.round((1 - Math.pow(1 - p, 4)) * target)] with
    [p = Math.min((now - start) / duration, 1)], each operation rounded to a
    number.  It is 0 at [p = 0] when [Math.pow(1, 4)] is 1, exactly the
    target at [p = 1] (so from [now - start >= duration] on) when
    [Math.pow(0, 4)] is 0, non-decreasing as [p] grows from 0 to 1 when
    [Math.pow(x, 4)] is non-decreasing on the unit interval, and [p] does not
    decrease with time.  From the start on it lies within
    1/2 + target * 2^-48 of the exact [target * (1 - (1 - p)^4)] with
    [p = min((now - start) / duration, 1)], when [Math.pow(x, 4)] keeps the
    unit interval and is accurate to 2^-52. *)
Theorem countup_displayed_value (target : Z) (duration start : Q) :
  (0 <= target)%Z -> is_number (inject_Z target) -> 0 < duration ->
  let c := mkClosure start (inject_Z target) duration in
  let shown times :=
    value (run_frames Math_pow times (mount (inject_Z target) duration start)) in
  shown [] = 0%Z /\
  (forall times now, Forall (fun t => t <= now) times ->
     let p := Math_min (fdiv (fsub now start) duration) 1 in
     shown (times ++ [now]) =
     Math_round (fmul (fsub 1 (Math_pow (fsub 1 p) 4%Z)) (inject_Z target)) /\
     shown (times ++ [now]) = eased_value Math_pow c now) /\
  (pow4_at_1 Math_pow ->
   forall now, progress c now == 0 -> eased_value Math_pow c now = 0%Z) /\
  progress c start == 0 /\
  (pow4_at_0 Math_pow ->
   forall now, progress c now == 1 -> eased_value Math_pow c now = target) /\
  (forall now, duration <= fsub now start -> progress c now == 1) /\
  (pow4_monotone Math_pow ->
   forall now1 now2, 0 <= progress c now1 ->
     progress c now1 <= progress c now2 ->
     (eased_value Math_pow c now1 <= eased_value Math_pow c now2)%Z) /\
  (forall now1 now2, now1 <= now2 -> progress c now1 <= progress c now2) /\
  (pow4_unit Math_pow -> pow4_accurate Math_pow ->
   forall now, start <= now ->
     Qabs (inject_Z (eased_value Math_pow c now) -
           eased_exact (inject_Z target) duration (now - start))
     <= (1 # 2) + inject_Z target * (1 # 281474976710656)).
Proof.
  intros T N D c shown.
  assert (T' : 0 <= c_target c) by (simpl; rewrite <- (Zle_Qle 0); exact T).
  split; [reflexivity |].
  split.
  { intros times now F p.
    assert (E : shown (times ++ [now]) = eased_value Math_pow c now).
    { unfold shown. apply run_frames_running;
        [exact D | apply mount_running | exact F]. }
    split; [rewrite E; reflexivity | exact E]. }
  split; [intros P1 now; apply eased_value_at_0, P1 |].
  split; [apply (progress_start c) |].
  split; [intros P0 now; apply eased_value_at_1; [exact P0 | reflexivity | exact N] |].
  split; [intros now; apply (progress_done c now D) |].
  split; [intros M now1 now2; apply eased_value_mono; [exact M | exact T'] |].
  split; [intros now1 now2; apply (progress_mono c now1 now2 D) |].
  intros U A now S. apply (eased_value_error c now U A T' D S).
Qed.

(** C8.  When a render finds the target changed, the animator restarts from
    0: whatever the hook displayed and had pending, the frames after the
    change display the eased values of the new target, counted from the
    time of the change, exactly as a newly mounted animator does (whose
    curve starts at 0).  Nothing of the previous value is carried over; the
    previous value stays on display only until the first such frame. *)
Theorem countup_restarts_on_target_change
    (h : CountUp) (old_target old_duration target duration changed : Q) :
  reachable Math_pow h ->
  deps h = Some (old_target, old_duration) -> ~ old_target == target ->
  0 < duration ->
  let h' := rerender target duration changed h in
  let c := mkClosure changed target duration in
  value h' = value h /\
  (pow4_at_1 Math_pow -> eased_value Math_pow c changed = 0%Z) /\
  forall times now, Forall (fun t => t <= now) times ->
    value (run_frames Math_pow (times ++ [now]) h') = eased_value Math_pow c now /\
    value (run_frames Math_pow (times ++ [now]) h') =
    value (run_frames Math_pow (times ++ [now]) (mount target duration changed)).
Proof.
  intros R Dp Ch D h' c.
  assert (S : same_deps (deps h) target duration = false).
  { rewrite Dp. simpl. destruct (Qeq_bool old_target target) eqn:E; [| reflexivity].
    apply Qeq_bool_iff in E. contradiction. }
  destruct (rerender_running target duration changed h
              (reachable_at_most_current h R) S) as [Run V].
  split; [exact V |].
  split; [intros P1; apply eased_value_at_0; [exact P1 | apply (progress_start c)] |].
  intros times now F.
  assert (E : value (run_frames Math_pow (times ++ [now]) h') =
              eased_value Math_pow c now).
  { apply run_frames_running; [exact D | exact Run | exact F]. }
  split; [exact E |]. rewrite E. symmetry.
  apply run_frames_running; [exact D | apply mount_running | exact F].
Qed.

End Easing.

(** ** One engine: the correctly rounded power *)

Lemma pow_correctly_rounded_at_0 : pow4_at_0 pow_correctly_rounded.
Proof. reflexivity. Qed.

Lemma pow_correctly_rounded_at_1 : pow4_at_1 pow_correctly_rounded.
Proof. reflexivity. Qed.

Lemma pow_correctly_rounded_unit : pow4_unit pow_correctly_rounded.
Proof.
  intros x H0 H1. unfold pow_correctly_rounded.
  destruct (pow4_unit_interval x H0 H1) as [L U]. split.
  - apply fl_nonneg, L.
  - apply Qle_trans with (fl 1); [apply fl_mono, U | rewrite fl_1; apply Qle_refl].
Qed.

Lemma pow_correctly_rounded_above : pow4_above pow_correctly_rounded.
Proof.
  intros x H. unfold pow_correctly_rounded.
  apply Qle_trans with (fl 1); [rewrite fl_1; apply Qle_refl |].
  apply fl_mono. apply Qle_trans with (1 ^ 4); [discriminate |].
  apply pow4_mono; [discriminate | exact H].
Qed.

Lemma pow_correctly_rounded_monotone : pow4_monotone pow_correctly_rounded.
Proof.
  intros x y H0 H _. unfold pow_correctly_rounded.
  apply fl_mono, pow4_mono; assumption.
Qed.

Lemma pow_correctly_rounded_accurate : pow4_accurate pow_correctly_rounded.
Proof.
  intros x H0 H1. unfold pow_correctly_rounded.
  destruct (pow4_unit_interval x H0 H1) as [L _].
  pose proof (fl_rel_err (x ^ 4)) as E. rewrite (Qabs_pos _ L) in E.
  apply Qle_trans with (1 := E). set (y := x ^ 4) in *. clearbody y. lra.
Qed.

(** C4, as stated, fails: with target 648 and duration 1800 the frame at
    elapsed time 300 displays 335, while the exact value of
    [target * (1 - (1 - p)^4)] is 335.5, which rounds to 336. *)
Lemma countup_exact_formula_counterexample :
  let h := run_frames pow_correctly_rounded [300] (mount 648 1800 0) in
  value h = 335%Z /\
  eased_exact 648 1800 300 == 671 # 2 /\
  Math_round (eased_exact 648 1800 300) = 336%Z /\
  value h <> Math_round (eased_exact 648 1800 300).
Proof.
  vm_compute. repeat split; try reflexivity. discriminate.
Qed.

(** The frame of the counterexample shows 335 for every engine whose
    [Math.pow] is within one unit in the last place of the correctly rounded
    power there. *)
Lemma countup_exact_formula_any_engine (Math_pow : Q -> Z -> Q) :
  let x := fsub 1 (Math_min (fdiv (fsub 300 0) 1800) 1) in
  Qabs (Math_pow x 4%Z - pow_correctly_rounded x 4) <= 1 # 18014398509481984 ->
  value (run_frames Math_pow [300] (mount 648 1800 0)) = 335%Z.
Proof.
  intros x H.
  change [300] with ([] ++ [300]).
  rewrite (run_frames_running Math_pow (mkClosure 0 648 1800) 300 [] _);
    [| reflexivity | apply mount_running | constructor].
  unfold eased_value, progress. cbn [c_start c_target c_duration]. fold x.
  set (w0 := pow_correctly_rounded x 4) in *.
  set (w := Math_pow x 4%Z) in *. clearbody w.
  apply Qabs_Qle_condition in H. destruct H as [L U].
  set (u := 1 # 18014398509481984) in *.
  assert (Lo : (335 <= Math_round (fmul (fsub 1 w) 648))%Z).
  { change 335%Z with (Math_round (fmul (fsub 1 (w0 + u)) 648)).
    apply Math_round_mono. unfold fmul, fsub.
    apply fl_mono. apply Qmult_le_compat_r; [| discriminate].
    apply fl_mono. lra. }
  assert (Hi : (Math_round (fmul (fsub 1 w) 648) <= 335)%Z).
  { change 335%Z with (Math_round (fmul (fsub 1 (w0 - u)) 648)).
    apply Math_round_mono. unfold fmul, fsub.
    apply fl_mono. apply Qmult_le_compat_r; [| discriminate].
    apply fl_mono. lra. }
  lia.
Qed.

Lemma countup_displayed_value_witness :
  let c := mkClosure 0 (inject_Z 1000000) 1800 in
  let shown times :=
    value (run_frames pow_correctly_rounded times
             (mount (inject_Z 1000000) 1800 0)) in
  shown [] = 0%Z /\
  (forall times now, Forall (fun t => t <= now) times ->
     shown (times ++ [now]) = eased_value pow_correctly_rounded c now) /\
  (forall now, progress c now == 0 ->
     eased_value pow_correctly_rounded c now = 0%Z) /\
  (forall now, progress c now == 1 ->
     eased_value pow_correctly_rounded c now = 1000000%Z) /\
  (forall now1 now2, 0 <= progress c now1 ->
     progress c now1 <= progress c now2 ->
     (eased_value pow_correctly_rounded c now1 <=
      eased_value pow_correctly_rounded c now2)%Z) /\
  (forall now, 0 <= now ->
     Qabs (inject_Z (eased_value pow_correctly_rounded c now) -
           eased_exact (inject_Z 1000000) 1800 (now - 0))
     <= (1 # 2) + inject_Z 1000000 * (1 # 281474976710656)).
Proof.
  intros c shown.
  destruct (countup_displayed_value pow_correctly_rounded 1000000 1800 0)
    as (S0 & Hshown & H0 & _ & H1 & _ & Hmono & _ & Herr).
  - lia.
  - vm_compute. reflexivity.
  - reflexivity.
  - split; [exact S0 |].
    split; [intros times now F; apply (Hshown times now F) |].
    split; [exact (H0 pow_correctly_rounded_at_1) |].
    split; [exact (H1 pow_correctly_rounded_at_0) |].
    split; [exact (Hmono pow_correctly_rounded_monotone) |].
    exact (Herr pow_correctly_rounded_unit pow_correctly_rounded_accurate).
Defined.

Lemma countup_restarts_on_target_change_witness :
  let pow := pow_correctly_rounded in
  let h := frame pow 1800 (frame pow 16 (mount 1000 1800 0)) in
  let h' := rerender 50 1800 2000 h in
  let c := mkClosure 2000 50 1800 in
  value h' = value h /\
  (pow4_at_1 pow -> eased_value pow c 2000 = 0%Z) /\
  forall times now, Forall (fun t => t <= now) times ->
    value (run_frames pow (times ++ [now]) h') = eased_value pow c now /\
    value (run_frames pow (times ++ [now]) h') =
    value (run_frames pow (times ++ [now]) (mount 50 1800 2000)).
Proof.
  apply (countup_restarts_on_target_change pow_correctly_rounded
           (frame pow_correctly_rounded 1800
              (frame pow_correctly_rounded 16 (mount 1000 1800 0)))
           1000 1800 50 1800 2000).
  - apply reach_frame, reach_frame, reach_mount.
  - vm_compute. reflexivity.
  - discriminate.
  - reflexivity.
Defined.

(* ================================================================= *)
(** * fetchDonations *)

Lemma isDemo_sentinel cfg :
  isDemo cfg = true <-> APPS_SCRIPT_URL cfg = "YOUR_APPS_SCRIPT_URL"%string.
Proof. unfold isDemo. apply String.eqb_eq. Qed.

(** In demo mode the array in state is [DEMO] itself and no request is made. *)
Lemma fetchDonations_demo cfg server w :
  isDemo cfg = true ->
  fetchDonations cfg server w =
  (Val tt, mkWorld (heap w) (mkAppState DEMO_loc false (error (app w))) (requests w)).
Proof. intros D. unfold fetchDonations. rewrite D. reflexivity. Qed.

(** Outside demo mode one request is made, and its fate decides the rest. *)
Lemma fetchDonations_live cfg server w :
  isDemo cfg = false ->
  fetchDonations cfg server w =
  (Val tt,
   let url := APPS_SCRIPT_URL cfg in
   match server (length (requests w)) url with
   | Rejected => after_failure url w
   | Resolved res =>
       if ok res then
         match body res with
         | JsonData data => after_success url (donations_of data) w
         | _ => after_failure url w
         end
       else after_failure url w
   end).
Proof.
  intros D. unfold fetchDonations. rewrite D.
  unfold try_finally, try_catch, bind, fetch.
  destruct (server (length (requests w)) (APPS_SCRIPT_URL cfg)) as [| res];
    [reflexivity |].
  destruct (ok res); simpl; [| reflexivity].
  unfold json. destruct (body res) as [| | data]; try reflexivity.
  unfold donations_of. simpl. destruct (data_donations data); reflexivity.
Qed.

Lemma fetchDonations_returns cfg server w :
  fst (fetchDonations cfg server w) = Val tt.
Proof.
  destruct (isDemo cfg) eqn:D.
  - rewrite fetchDonations_demo by exact D. reflexivity.
  - rewrite fetchDonations_live by exact D. reflexivity.
Qed.

Lemma fetchDonations_failure cfg server w :
  isDemo cfg = false ->
  let r := server (length (requests w)) (APPS_SCRIPT_URL cfg) in
  transport_failure r \/ non_success_status r \/ malformed_body r ->
  snd (fetchDonations cfg server w) = after_failure (APPS_SCRIPT_URL cfg) w.
Proof.
  intros D r F. rewrite fetchDonations_live by exact D. simpl. fold r.
  destruct F as [F | [[res [E K]] | [res [E [K B]]]]].
  - unfold transport_failure in F. rewrite F. reflexivity.
  - rewrite E, K. reflexivity.
  - rewrite E, K. destruct B as [B | B]; rewrite B; reflexivity.
Qed.

Lemma fetchDonations_success cfg server w data :
  isDemo cfg = false ->
  success_with (server (length (requests w)) (APPS_SCRIPT_URL cfg)) data ->
  snd (fetchDonations cfg server w) =
  after_success (APPS_SCRIPT_URL cfg) (donations_of data) w.
Proof.
  intros D [res [E [K B]]]. rewrite fetchDonations_live by exact D. simpl.
  rewrite E, K, B. reflexivity.
Qed.

Lemma read_after_success url l w :
  read (heap (after_success url l w)) (donations (app (after_success url l w))) = l.
Proof. exact (read_alloc_new (heap w) l). Qed.

(** C5.  Outside demo mode, a request that meets a transport failure, a
    non-success HTTP status or a malformed body leaves exactly the generic
    message in [error], whatever the cause was; a success response whose
    body has no donations list leaves an empty list and no error. *)
Theorem fetch_failure_gives_generic_error (cfg : Config) (server : Server) (w : World) :
  isDemo cfg = false ->
  let r := server (length (requests w)) (APPS_SCRIPT_URL cfg) in
  let w' := snd (fetchDonations cfg server w) in
  (transport_failure r \/ non_success_status r \/ malformed_body r ->
   error (app w') =
   Some "Could not load donation data. Will retry automatically."%string) /\
  (forall data, success_with r data -> data_donations data = None ->
   error (app w') = None /\ read (heap w') (donations (app w')) = []).
Proof.
  intros D r w'. split.
  - intros F. unfold w'. rewrite (fetchDonations_failure cfg server w D F).
    reflexivity.
  - intros data S N. unfold w'.
    rewrite (fetchDonations_success cfg server w data D S).
    split; [reflexivity |]. rewrite read_after_success.
    unfold donations_of. rewrite N. reflexivity.
Qed.

Lemma fetch_failure_gives_generic_error_witness :
  let server : Server := fun n _ =>
    match n with
    | O => Resolved (mkResponse 500 NotJson)
    | _ => Resolved (mkResponse 200 (JsonData (mkApiResponse (Some true) None None)))
    end in
  error (app (snd (fetchDonations CONFIG server initial_world))) =
    Some "Could not load donation data. Will retry automatically."%string /\
  let w1 := snd (fetchDonations CONFIG server initial_world) in
  let w2 := snd (fetchDonations CONFIG server w1) in
  error (app w2) = None /\ read (heap w2) (donations (app w2)) = [].
Proof.
  intros server. split.
  - apply (fetch_failure_gives_generic_error CONFIG server initial_world);
      [reflexivity |].
    right; left. exists (mkResponse 500 NotJson). split; reflexivity.
  - intros w1 w2.
    apply (fetch_failure_gives_generic_error CONFIG server w1)
      with (data := mkApiResponse (Some true) None None); [reflexivity | | reflexivity].
    exists (mkResponse 200 (JsonData (mkApiResponse (Some true) None None))).
    repeat split; reflexivity.
Defined.

(** C6.  Applying a fetch result never leaves the donation list half
    updated.  A failed fetch keeps the array in state and the contents of
    every array, and sets only the error message; a successful fetch puts a
    fresh array with the received list in state and clears the error; both
    clear the loading flag. *)
Theorem fetch_result_applied_atomically (cfg : Config) (server : Server) (w : World) :
  isDemo cfg = false ->
  let r := server (length (requests w)) (APPS_SCRIPT_URL cfg) in
  let w' := snd (fetchDonations cfg server w) in
  (transport_failure r \/ non_success_status r \/ malformed_body r ->
   donations (app w') = donations (app w) /\
   heap w' = heap w /\
   read (heap w') (donations (app w')) = read (heap w) (donations (app w)) /\
   error (app w') = Some generic_error /\
   loading (app w') = false) /\
  (forall data, success_with r data ->
   read (heap w') (donations (app w')) = donations_of data /\
   (forall a, (a < length (heap w))%nat -> read (heap w') a = read (heap w) a) /\
   (length (heap w) <= donations (app w'))%nat /\
   error (app w') = None /\
   loading (app w') = false).
Proof.
  intros D r w'. split.
  - intros F. unfold w'. rewrite (fetchDonations_failure cfg server w D F).
    repeat split; reflexivity.
  - intros data S. unfold w'.
    rewrite (fetchDonations_success cfg server w data D S).
    split; [apply read_after_success |].
    split; [intros a Ha; exact (read_alloc_old (heap w) (donations_of data) a Ha) |].
    split; [simpl; lia |]. split; reflexivity.
Qed.

Lemma fetch_result_applied_atomically_witness :
  let good := mkApiResponse (Some true) (Some DEMO) None in
  let server : Server := fun n _ =>
    match n with
    | O => Resolved (mkResponse 200 (JsonData good))
    | _ => Rejected
    end in
  let w1 := snd (fetchDonations CONFIG server initial_world) in
  let w2 := snd (fetchDonations CONFIG server w1) in
  read (heap w1) (donations (app w1)) = DEMO /\
  error (app w1) = None /\ loading (app w1) = false /\
  read (heap w2) (donations (app w2)) = DEMO /\
  error (app w2) = Some generic_error /\ loading (app w2) = false.
Proof.
  intros good server w1 w2.
  destruct (fetch_result_applied_atomically CONFIG server initial_world eq_refl)
    as [_ S1].
  destruct (S1 good) as (R1 & _ & _ & E1 & L1).
  { exists (mkResponse 200 (JsonData good)). repeat split; reflexivity. }
  destruct (fetch_result_applied_atomically CONFIG server w1 eq_refl)
    as [F2 _].
  destruct F2 as (_ & _ & R2 & E2 & L2).
  { left. reflexivity. }
  fold w1 in R1, E1, L1, R2. fold w2 in R2, E2, L2.
  repeat split; try assumption; try (rewrite R2; exact R1).
Defined.

(** C9.  The success flag of the body is never read: for every response
    with a success HTTP status and a parsed body, whatever its success flag
    and error field are, the donations list of the body (the empty list when
    it is absent) is the one in state afterwards, and the error is cleared. *)
Theorem success_flag_not_inspected (cfg : Config) (server : Server) (w : World)
    (res : Response) (flag : option bool) (list : option (list Donation))
    (err : option string) :
  isDemo cfg = false ->
  server (length (requests w)) (APPS_SCRIPT_URL cfg) = Resolved res ->
  ok res = true ->
  body res = JsonData (mkApiResponse flag list err) ->
  let w' := snd (fetchDonations cfg server w) in
  read (heap w') (donations (app w')) =
    match list with Some l => l | None => [] end /\
  error (app w') = None /\
  loading (app w') = false /\
  w' = after_success (APPS_SCRIPT_URL cfg)
         (match list with Some l => l | None => [] end) w.
Proof.
  intros D E K B w'.
  assert (S : success_with (server (length (requests w)) (APPS_SCRIPT_URL cfg))
                (mkApiResponse flag list err)).
  { exists res. repeat split; assumption. }
  unfold w'. rewrite (fetchDonations_success cfg server w _ D S).
  split; [apply read_after_success |]. repeat split; reflexivity.
Qed.

Lemma success_flag_not_inspected_witness :
  let data := mkApiResponse (Some false) (Some DEMO) (Some "quota exceeded"%string) in
  let server : Server := fun _ _ => Resolved (mkResponse 200 (JsonData data)) in
  let w' := snd (fetchDonations CONFIG server initial_world) in
  read (heap w') (donations (app w')) = DEMO /\
  error (app w') = None /\
  loading (app w') = false /\
  w' = after_success (APPS_SCRIPT_URL CONFIG) DEMO initial_world.
Proof.
  intros data server.
  apply (success_flag_not_inspected CONFIG server initial_world
           (mkResponse 200 (JsonData data)) (Some false) (Some DEMO)
           (Some "quota exceeded"%string)); reflexivity.
Defined.

(** ** Demo mode *)

(** C7, as stated, fails: in demo mode the second record displayed is Dewi
    Lestari (750,000); Siti Rahayu (500,000) is third. *)
Lemma demo_second_record_counterexample :
  let cfg := mkConfig "YOUR_APPS_SCRIPT_URL" (GOOGLE_FORM_URL CONFIG)
               (DONATION_GOAL CONFIG) (REFRESH_MS CONFIG) in
  let w' := snd (fetchDonations cfg (fun _ _ => Rejected) initial_world) in
  let shown := read (fst (view cfg w')) (sorted (snd (view cfg w'))) in
  nth_error shown 1 = Some (mkDonation "Dewi Lestari" 750000 "01 Mar 2025, 14:01" EmptyString) /\
  ~ (exists d, nth_error shown 1 = Some d /\
               name d = "Siti Rahayu"%string /\ amount d = 500000%Z).
Proof.
  intros cfg w' shown.
  assert (E : nth_error shown 1 =
              Some (mkDonation "Dewi Lestari" 750000 "01 Mar 2025, 14:01" EmptyString))
    by (vm_compute; reflexivity).
  split; [exact E |].
  intros [d [H [_ A]]]. rewrite E in H. injection H as <-. discriminate A.
Qed.

(** C7, amended.  When the configured endpoint URL equals the sentinel
    "YOUR_APPS_SCRIPT_URL", no network call occurs and the displayed list is
    the fixed fallback list sorted descending by amount: Ahmad Fauzi
    (1,000,000) first, Dewi Lestari (750,000) second, Siti Rahayu (500,000)
    third, then Budi Santoso (250,000) and Anonymous (150,000); the array
    [DEMO] itself keeps its order. *)
Theorem demo_mode_shows_sorted_fallback (cfg : Config) (server : Server) (w : World) :
  APPS_SCRIPT_URL cfg = "YOUR_APPS_SCRIPT_URL"%string ->
  read (heap w) DEMO_loc = DEMO ->
  let w' := snd (fetchDonations cfg server w) in
  let shown := read (fst (view cfg w')) (sorted (snd (view cfg w'))) in
  requests w' = requests w /\
  donations (app w') = DEMO_loc /\
  shown = [ mkDonation "Ahmad Fauzi" 1000000 "01 Mar 2025, 10:22" EmptyString;
            mkDonation "Dewi Lestari" 750000 "01 Mar 2025, 14:01" EmptyString;
            mkDonation "Siti Rahayu" 500000 "01 Mar 2025, 11:05" EmptyString;
            mkDonation "Budi Santoso" 250000 "01 Mar 2025, 12:14" EmptyString;
            mkDonation "Anonymous" 150000 "01 Mar 2025, 13:30" EmptyString ] /\
  stable_desc_sort_of DEMO shown /\
  read (fst (view cfg w')) DEMO_loc = DEMO.
Proof.
  intros U H w' shown.
  assert (D : isDemo cfg = true) by (apply isDemo_sentinel, U).
  assert (V : shown = sort by_amount_desc DEMO).
  { unfold shown, view, w'. rewrite fetchDonations_demo by exact D.
    cbn [snd heap app donations].
    rewrite aggregate_sorted, H. reflexivity. }
  assert (L : (DEMO_loc < length (heap w))%nat).
  { unfold read, DEMO_loc in *. destruct (heap w); [discriminate H | simpl; lia]. }
  split; [unfold w'; rewrite fetchDonations_demo by exact D; reflexivity |].
  split; [unfold w'; rewrite fetchDonations_demo by exact D; reflexivity |].
  split; [rewrite V; vm_compute; reflexivity |].
  split; [rewrite V; apply sort_stable_desc |].
  unfold view, w'. rewrite fetchDonations_demo by exact D.
  cbn [snd heap app donations].
  rewrite aggregate_frame by exact L. exact H.
Qed.

Lemma demo_mode_shows_sorted_fallback_witness :
  let cfg := mkConfig "YOUR_APPS_SCRIPT_URL" (GOOGLE_FORM_URL CONFIG)
               (DONATION_GOAL CONFIG) (REFRESH_MS CONFIG) in
  let server : Server := fun _ _ => Rejected in
  let w' := snd (fetchDonations cfg server initial_world) in
  let shown := read (fst (view cfg w')) (sorted (snd (view cfg w'))) in
  requests w' = requests initial_world /\
  donations (app w') = DEMO_loc /\
  shown = [ mkDonation "Ahmad Fauzi" 1000000 "01 Mar 2025, 10:22" EmptyString;
            mkDonation "Dewi Lestari" 750000 "01 Mar 2025, 14:01" EmptyString;
            mkDonation "Siti Rahayu" 500000 "01 Mar 2025, 11:05" EmptyString;
            mkDonation "Budi Santoso" 250000 "01 Mar 2025, 12:14" EmptyString;
            mkDonation "Anonymous" 150000 "01 Mar 2025, 13:30" EmptyString ] /\
  stable_desc_sort_of DEMO shown /\
  read (fst (view cfg w')) DEMO_loc = DEMO.
Proof.
  intros cfg server.
  apply (demo_mode_shows_sorted_fallback cfg server initial_world); reflexivity.
Defined.

(** ** The shipped configuration *)

Lemma fetchDonations_live_requests cfg server w :
  isDemo cfg = false ->
  requests (snd (fetchDonations cfg server w)) =
  (requests w ++ [APPS_SCRIPT_URL cfg])%list.
Proof.
  intros D. rewrite fetchDonations_live by exact D. simpl.
  destruct (server (length (requests w)) (APPS_SCRIPT_URL cfg)) as [| res];
    [reflexivity |].
  destruct (ok res); [| reflexivity].
  destruct (body res); reflexivity.
Qed.

Lemma cycles_requests cfg server n : forall w,
  isDemo cfg = false ->
  requests (snd (cycles cfg server n w)) =
  (requests w ++ repeat (APPS_SCRIPT_URL cfg) n)%list.
Proof.
  induction n as [| k IH]; intros w D; simpl.
  - rewrite app_nil_r. reflexivity.
  - unfold bind.
    pose proof (fetchDonations_returns cfg server w) as R.
    pose proof (fetchDonations_live_requests cfg server w D) as Q.
    destruct (fetchDonations cfg server w) as [o w1]. simpl in R, Q. subst o.
    rewrite IH by exact D. rewrite Q, <- app_assoc. reflexivity.
Qed.

(** C10.  With the shipped configuration the endpoint URL is a concrete
    Apps Script URL, different from the sentinel "YOUR_APPS_SCRIPT_URL":
    [isDemo] is false, [fetchDonations] is its non-demo branch, the demo
    notice is not rendered, and every refresh cycle (the first call and each
    tick of the interval) makes one request to that URL. *)
Theorem shipped_config_is_live :
  APPS_SCRIPT_URL CONFIG <> "YOUR_APPS_SCRIPT_URL"%string /\
  isDemo CONFIG = false /\
  demo_notice CONFIG = false /\
  (forall server : Server,
     fetchDonations CONFIG server =
     try_finally
       (try_catch
          (res <- fetch server (APPS_SCRIPT_URL CONFIG) ;;
           (if negb (ok res) then throw (HttpError (status res)) else ret tt) ;;;
           data <- json res ;;
           arr <- donations_or_empty data ;;
           setDonations arr ;;;
           setError None)
          (fun e => setError (Some generic_error)))
       (setLoading false)) /\
  (forall (server : Server) (w : World),
     requests (snd (fetchDonations CONFIG server w)) =
     (requests w ++ [APPS_SCRIPT_URL CONFIG])%list) /\
  (forall (server : Server) (ticks : nat) (w : World),
     requests (snd (refresh CONFIG server ticks w)) =
     (requests w ++ repeat (APPS_SCRIPT_URL CONFIG) (S ticks))%list).
Proof.
  assert (D : isDemo CONFIG = false) by reflexivity.
  split; [intros E; apply isDemo_sentinel in E; congruence |].
  split; [exact D |]. split; [exact D |].
  split; [intros server; reflexivity |].
  split; [intros server w; apply fetchDonations_live_requests, D |].
  intros server ticks w. unfold refresh, bind.
  pose proof (fetchDonations_returns CONFIG server w) as R.
  pose proof (fetchDonations_live_requests CONFIG server w D) as Q.
  destruct (fetchDonations CONFIG server w) as [o w1]. simpl in R, Q. subst o.
  rewrite cycles_requests by exact D. rewrite Q, <- app_assoc. reflexivity.
Qed.

(* ================================================================= *)
(** * More about useCountUp *)

Lemma progress_after_twice_duration c :
  0 < c_duration c -> progress c (c_start c + 2 * c_duration c) == 1.
Proof.
  intros D. apply progress_done; [exact D |].
  unfold fsub.
  rewrite (fl_comp (c_start c + 2 * c_duration c - c_start c) (2 * c_duration c))
    by ring.
  destruct (fl_err_bounds (2 * c_duration c)) as [L _]; lra.
Qed.

Section EasingMore.

Variable Math_pow : Q -> Z -> Q.

Lemma run_frames_state c : forall times h,
  running c h ->
  running c (run_frames Math_pow times h) \/
  frames (run_frames Math_pow times h) = [].
Proof.
  induction times as [| t ts IH]; intros h R; [left; exact R |].
  change (run_frames Math_pow (t :: ts) h)
    with (run_frames Math_pow ts (frame Math_pow t h)).
  destruct (frame_running Math_pow c t h R) as [_ [Stop Go]].
  destruct (Qlt_le_dec (progress c t) 1) as [K | K].
  - apply IH, Go, K.
  - right. rewrite run_frames_idle by (apply Stop, K). apply Stop, K.
Qed.

Lemma run_frames_keeps_running c : forall times h,
  running c h -> Forall (fun t => progress c t < 1) times ->
  running c (run_frames Math_pow times h).
Proof.
  induction times as [| t ts IH]; intros h R F; [exact R |].
  inversion F as [| ? ? Ht Fts]; subst.
  change (run_frames Math_pow (t :: ts) h)
    with (run_frames Math_pow ts (frame Math_pow t h)).
  apply IH; [| exact Fts].
  apply (frame_running Math_pow c t h R), Ht.
Qed.

(** X1.  In every state the hook can reach, at most one animation frame
    callback is pending, and it is the one [rafRef.current] names: the
    cleanup can always cancel whatever is scheduled. *)
Theorem countup_single_pending_callback (h : CountUp) :
  reachable Math_pow h ->
  (length (frames h) <= 1)%nat /\
  forall id c, In (id, c) (frames h) -> rafRef h = Some id.
Proof.
  intros R.
  destruct (reachable_at_most_current Math_pow h R) as [F | [id [c [F Ref]]]];
    rewrite F; simpl.
  - split; [lia | intros ? ? []].
  - split; [lia |]. intros id' c' [E | []]. injection E as <- _. exact Ref.
Qed.

(** X2.  Unmounting leaves no callback behind: from any reachable state,
    after the cleanup no animation frame is pending, and the frames the
    browser runs afterwards leave the hook exactly as it was, so the value
    is never written after the teardown. *)
Theorem countup_unmount_cancels (h : CountUp) (times : list Q) :
  reachable Math_pow h ->
  frames (unmount h) = [] /\
  value (unmount h) = value h /\
  run_frames Math_pow times (unmount h) = unmount h.
Proof.
  intros R.
  assert (F : frames (unmount h) = []).
  { unfold unmount, cleanup.
    destruct (reachable_at_most_current Math_pow h R) as [F | [id [c [F Ref]]]].
    - destruct (rafRef h); simpl; rewrite ?F; reflexivity.
    - rewrite Ref. simpl. rewrite F. simpl. rewrite Nat.eqb_refl. reflexivity. }
  split; [exact F |]. split.
  - unfold unmount, cleanup. destruct (rafRef h); reflexivity.
  - apply run_frames_idle, F.
Qed.

(** X3.  The animation schedules itself exactly as long as [p < 1]: while
    every frame so far had [p < 1] the callback is pending again, and once a
    frame saw [p = 1] (elapsed time at least the duration) nothing is
    pending and further frames change nothing. *)
Theorem countup_stops_at_full_progress (target duration start : Q)
    (times : list Q) (now : Q) (later : list Q) :
  0 < duration ->
  let c := mkClosure start target duration in
  let h := mount target duration start in
  (Forall (fun t => progress c t < 1) times ->
   running c (run_frames Math_pow times h)) /\
  (duration <= fsub now start ->
   frames (run_frames Math_pow (times ++ [now]) h) = [] /\
   run_frames Math_pow later (run_frames Math_pow (times ++ [now]) h) =
   run_frames Math_pow (times ++ [now]) h).
Proof.
  intros D c h. split.
  - intros F. apply run_frames_keeps_running; [apply mount_running | exact F].
  - intros E.
    assert (P : 1 <= progress c now).
    { rewrite (progress_done c now D E). apply Qle_refl. }
    assert (F : frames (run_frames Math_pow (times ++ [now]) h) = []).
    { rewrite run_frames_snoc.
      destruct (run_frames_state c times h (mount_running target duration start))
        as [R | I].
      - apply (frame_running Math_pow c now _ R), P.
      - rewrite (frame_idle Math_pow now _ I). exact I. }
    split; [exact F | apply run_frames_idle, F].
Qed.

(** X4.  For a non-negative integer target and a positive duration, and an
    engine whose [Math.pow(x, 4)] keeps the unit interval and is at least 1
    from 1 on: a frame whose time is not before the start displays a value
    between 0 and the target; a frame whose timestamp precedes the start
    (the browser may hand out a frame time older than [performance.now()])
    displays a value that is not positive. *)
Theorem countup_value_range (target : Z) (duration start now : Q) :
  pow4_unit Math_pow -> pow4_above Math_pow ->
  (0 <= target)%Z -> is_number (inject_Z target) -> 0 < duration ->
  let c := mkClosure start (inject_Z target) duration in
  (start <= now -> (0 <= eased_value Math_pow c now <= target)%Z) /\
  (now <= start -> (eased_value Math_pow c now <= 0)%Z).
Proof.
  intros U A T N D c.
  assert (T' : 0 <= c_target c) by (simpl; rewrite <- (Zle_Qle 0); exact T).
  split; intros H.
  - apply eased_value_in_range; [exact U | reflexivity | exact N | exact T |].
    apply (progress_nonneg c now D H).
  - apply eased_value_nonpos; [exact A | exact T' |].
    apply (progress_nonpos c now D H).
Qed.

(** X5.  The duration is a dependency of the effect as well: a render with
    the same target and another duration cancels the pending callback and
    restarts the curve from the time of that render, as a fresh mount does. *)
Theorem countup_restarts_on_duration_change
    (h : CountUp) (old_target old_duration target duration changed : Q) :
  reachable Math_pow h ->
  deps h = Some (old_target, old_duration) -> ~ old_duration == duration ->
  0 < duration ->
  let h' := rerender target duration changed h in
  let c := mkClosure changed target duration in
  running c h' /\
  forall times now, Forall (fun t => t <= now) times ->
    value (run_frames Math_pow (times ++ [now]) h') = eased_value Math_pow c now /\
    value (run_frames Math_pow (times ++ [now]) h') =
    value (run_frames Math_pow (times ++ [now]) (mount target duration changed)).
Proof.
  intros R Dp Ch D h' c.
  assert (S : same_deps (deps h) target duration = false).
  { rewrite Dp. simpl. destruct (Qeq_bool old_duration duration) eqn:E.
    - apply Qeq_bool_iff in E. contradiction.
    - apply andb_false_r. }
  destruct (rerender_running target duration changed h
              (reachable_at_most_current Math_pow h R) S) as [Run V].
  split; [exact Run |].
  intros times now F.
  assert (E : value (run_frames Math_pow (times ++ [now]) h') =
              eased_value Math_pow c now).
  { apply run_frames_running; [exact D | exact Run | exact F]. }
  split; [exact E |]. rewrite E. symmetry.
  apply run_frames_running; [exact D | apply mount_running | exact F].
Qed.

End EasingMore.

Lemma countup_single_pending_callback_witness :
  let pow := pow_correctly_rounded in
  let h := rerender 50 1800 40 (frame pow 16 (mount 1000 1800 0)) in
  (length (frames h) <= 1)%nat /\
  forall id c, In (id, c) (frames h) -> rafRef h = Some id.
Proof.
  apply (countup_single_pending_callback pow_correctly_rounded
           (rerender 50 1800 40 (frame pow_correctly_rounded 16 (mount 1000 1800 0)))).
  apply reach_rerender, reach_frame, reach_mount.
Defined.

Lemma countup_unmount_cancels_witness :
  let pow := pow_correctly_rounded in
  let h := frame pow 16 (mount 1000 1800 0) in
  frames (unmount h) = [] /\
  value (unmount h) = value h /\
  run_frames pow [32; 48] (unmount h) = unmount h.
Proof.
  apply (countup_unmount_cancels pow_correctly_rounded
           (frame pow_correctly_rounded 16 (mount 1000 1800 0)) [32; 48]).
  apply reach_frame, reach_mount.
Defined.

Lemma countup_stops_at_full_progress_witness :
  let pow := pow_correctly_rounded in
  let c := mkClosure 0 1000 1800 in
  let h := mount 1000 1800 0 in
  running c (run_frames pow [16; 900] h) /\
  frames (run_frames pow ([16; 900] ++ [1800]) h) = [] /\
  run_frames pow [1816] (run_frames pow ([16; 900] ++ [1800]) h) =
  run_frames pow ([16; 900] ++ [1800]) h.
Proof.
  destruct (countup_stops_at_full_progress pow_correctly_rounded
              1000 1800 0 [16; 900] 1800 [1816])
    as [Go Stop]; [reflexivity |].
  split.
  - apply Go.
    constructor; [vm_compute; reflexivity |].
    constructor; [vm_compute; reflexivity | constructor].
  - apply Stop. vm_compute. discriminate.
Defined.

Lemma countup_value_range_witness :
  let pow := pow_correctly_rounded in
  (0 <= eased_value pow (mkClosure 100 (inject_Z 1000000) 1800) 500 <= 1000000)%Z /\
  (eased_value pow (mkClosure 100 (inject_Z 1000000) 1800) 95 <= 0)%Z.
Proof.
  split.
  - apply (countup_value_range pow_correctly_rounded 1000000 1800 100 500);
      [apply pow_correctly_rounded_unit | apply pow_correctly_rounded_above
      | lia | vm_compute; reflexivity | reflexivity | discriminate].
  - apply (countup_value_range pow_correctly_rounded 1000000 1800 100 95);
      [apply pow_correctly_rounded_unit | apply pow_correctly_rounded_above
      | lia | vm_compute; reflexivity | reflexivity | discriminate].
Defined.

Lemma countup_restarts_on_duration_change_witness :
  let pow := pow_correctly_rounded in
  let h := frame pow 16 (mount 1000 1800 0) in
  let h' := rerender 1000 900 40 h in
  let c := mkClosure 40 1000 900 in
  running c h' /\
  forall times now, Forall (fun t => t <= now) times ->
    value (run_frames pow (times ++ [now]) h') = eased_value pow c now /\
    value (run_frames pow (times ++ [now]) h') =
    value (run_frames pow (times ++ [now]) (mount 1000 900 40)).
Proof.
  apply (countup_restarts_on_duration_change pow_correctly_rounded
           (frame pow_correctly_rounded 16 (mount 1000 1800 0))
           1000 1800 1000 900 40).
  - apply reach_frame, reach_mount.
  - vm_compute. reflexivity.
  - discriminate.
  - reflexivity.
Defined.

(** X6.  A refresh that brings the same donations, in any order, does not
    restart the count-up: the total is the same number, so the render of
    [AnimatedTotal] finds its dependencies unchanged and leaves the hook, its
    pending callback included, as it is. *)
Theorem same_donations_keep_animation (cfg : Config) (h1 h2 : Heap)
    (d1 d2 : loc) (hook : CountUp) (now : Q) :
  Permutation (read h1 d1) (read h2 d2) ->
  deps hook = Some (total (snd (aggregate cfg h1 d1)), 1800) ->
  AnimatedTotal (total (snd (aggregate cfg h2 d2))) now hook = hook.
Proof.
  intros P Dp. unfold AnimatedTotal, rerender. rewrite Dp.
  assert (E : total (snd (aggregate cfg h2 d2)) = total (snd (aggregate cfg h1 d1))).
  { rewrite !aggregate_total, !reduce_amounts.
    rewrite (sort_amounts_perm _ _ P). reflexivity. }
  rewrite E. unfold same_deps.
  assert (X : forall q, Qeq_bool q q = true).
  { intros q. apply Qeq_bool_iff. reflexivity. }
  rewrite !X. reflexivity.
Qed.

Lemma same_donations_keep_animation_witness :
  let hook := mount (total (snd (aggregate CONFIG [DEMO] 0%nat))) 1800 0 in
  AnimatedTotal (total (snd (aggregate CONFIG [[]; rev DEMO] 1%nat))) 30000 hook
  = hook.
Proof.
  apply (same_donations_keep_animation CONFIG [DEMO] [[]; rev DEMO] 0%nat 1%nat
           (mount (total (snd (aggregate CONFIG [DEMO] 0%nat))) 1800 0) 30000).
  - apply Permutation_rev.
  - reflexivity.
Defined.

(* ================================================================= *)
(** * More about fetchDonations and the refresh effect *)

Lemma fetchDonations_received cfg server w :
  isDemo cfg = false ->
  snd (fetchDonations cfg server w) =
  match received (server (length (requests w)) (APPS_SCRIPT_URL cfg)) with
  | Some l => after_success (APPS_SCRIPT_URL cfg) l w
  | None => after_failure (APPS_SCRIPT_URL cfg) w
  end.
Proof.
  intros D. rewrite fetchDonations_live by exact D. cbn [snd]. unfold received.
  destruct (server (length (requests w)) (APPS_SCRIPT_URL cfg)) as [| res];
    [reflexivity |].
  destruct (ok res); [| reflexivity].
  destruct (body res); reflexivity.
Qed.

Lemma cycles_S cfg server n w :
  cycles cfg server (S n) w =
  cycles cfg server n (snd (fetchDonations cfg server w)).
Proof.
  simpl. unfold bind.
  pose proof (fetchDonations_returns cfg server w) as R.
  destruct (fetchDonations cfg server w) as [o w1]. simpl in R. subst o.
  reflexivity.
Qed.

Lemma cycles_returns cfg server n : forall w,
  fst (cycles cfg server n w) = Val tt.
Proof.
  induction n as [| k IH]; intros w; [reflexivity |].
  rewrite cycles_S. apply IH.
Qed.

Lemma cycles_snoc cfg server n : forall w,
  snd (cycles cfg server (S n) w) =
  snd (fetchDonations cfg server (snd (cycles cfg server n w))).
Proof.
  induction n as [| k IH]; intros w.
  - rewrite cycles_S. reflexivity.
  - rewrite cycles_S. rewrite IH. rewrite (cycles_S cfg server k w). reflexivity.
Qed.

Lemma refresh_cycles cfg server ticks w :
  refresh cfg server ticks w = cycles cfg server (S ticks) w.
Proof. reflexivity. Qed.

Lemma fetchDonations_loading cfg server w :
  loading (app (snd (fetchDonations cfg server w))) = false.
Proof.
  destruct (isDemo cfg) eqn:D.
  - rewrite fetchDonations_demo by exact D. reflexivity.
  - rewrite fetchDonations_received by exact D.
    destruct (received _); reflexivity.
Qed.

(** X7.  [fetchDonations] never throws, in demo mode or not and whatever
    the request meets, so the promise it returns is never rejected; the
    same holds for the whole chain of calls of the refresh effect. *)
Theorem fetchDonations_never_throws (cfg : Config) (server : Server)
    (ticks : nat) (w : World) :
  fst (fetchDonations cfg server w) = Val tt /\
  fst (refresh cfg server ticks w) = Val tt.
Proof.
  split; [apply fetchDonations_returns |].
  rewrite refresh_cycles. apply cycles_returns.
Qed.


(** ** Overlapping requests *)

Lemma settle_world r w :
  settle r w =
  (Val tt,
   match received r with
   | Some l => mkWorld (heap w ++ [l]) (mkAppState (length (heap w)) false None)
                 (requests w)
   | None => mkWorld (heap w)
               (mkAppState (donations (app w)) false (Some generic_error))
               (requests w)
   end).
Proof.
  unfold settle, try_finally, try_catch, bind, received.
  destruct r as [| res]; [reflexivity |].
  unfold ret at 1. cbn beta iota.
  destruct (ok res); simpl; [| reflexivity].
  unfold json. destruct (body res) as [| | data]; try reflexivity.
  unfold donations_of. simpl. destruct (data_donations data); reflexivity.
Qed.

(** A call of [fetchDonations] that nothing interrupts is the call of
    [fetch] followed by the rest of the body. *)
Lemma fetchDonations_issue_settle cfg server w :
  isDemo cfg = false ->
  fetchDonations cfg server w =
  settle (server (length (requests w)) (APPS_SCRIPT_URL cfg))
    (issue (APPS_SCRIPT_URL cfg) w).
Proof.
  intros D. rewrite fetchDonations_live by exact D. rewrite settle_world.
  unfold received, after_success, after_failure, issue. cbn [heap app requests].
  destruct (server (length (requests w)) (APPS_SCRIPT_URL cfg)) as [| res];
    [reflexivity |].
  destruct (ok res); [| reflexivity].
  destruct (body res); reflexivity.
Qed.

(** A request that settles before the next call runs as [fetchDonations]
    does in one piece. *)
Lemma async_no_overlap cfg server w :
  isDemo cfg = false ->
  world (async_run cfg server [Tick; Settle (length (requests w))] (quiet w)) =
  snd (fetchDonations cfg server w).
Proof.
  intros D. rewrite fetchDonations_issue_settle by exact D.
  unfold async_run, quiet. cbn [fold_left async_step]. rewrite D.
  cbn [world outstanding settled List.app existsb orb].
  rewrite Nat.eqb_refl. reflexivity.
Qed.

Lemma async_run_snoc cfg server es e pg :
  async_run cfg server (es ++ [e]) pg =
  async_step cfg server e (async_run cfg server es pg).
Proof. unfold async_run. rewrite fold_left_app. reflexivity. Qed.

Lemma last_received_snoc rs r :
  last_received (rs ++ [r]) =
  match received r with
  | Some l => Some l
  | None => last_received rs
  end.
Proof. unfold last_received. rewrite fold_left_app. reflexivity. Qed.

Lemma settlements_step cfg server e pg :
  isDemo cfg = false ->
  let url := APPS_SCRIPT_URL cfg in
  (world (async_step cfg server e pg) = issue url (world pg) /\
   settled (async_step cfg server e pg) = settled pg) \/
  async_step cfg server e pg = pg \/
  exists id,
    world (async_step cfg server e pg) = snd (settle (server id url) (world pg)) /\
    settled (async_step cfg server e pg) = settled pg ++ [id].
Proof.
  intros D url. destruct e as [| id]; cbn [async_step].
  - rewrite D. left. split; reflexivity.
  - destruct (existsb (Nat.eqb id) (outstanding pg)).
    + right. right. exists id. split; reflexivity.
    + right. left. reflexivity.
Qed.

(** The requests that have settled or are outstanding were issued, each
    once. *)
Lemma async_run_issued cfg server es w :
  isDemo cfg = false ->
  let pg := async_run cfg server es (quiet w) in
  NoDup (outstanding pg ++ settled pg) /\
  Forall (fun id => (length (requests w) <= id < length (requests (world pg)))%nat)
    (outstanding pg ++ settled pg).
Proof.
  intros D. induction es as [| e es IH] using rev_ind.
  - simpl. split; constructor.
  - cbn zeta in *. rewrite async_run_snoc.
    set (pg := async_run cfg server es (quiet w)) in *.
    destruct IH as [ND F].
    assert (G : (length (requests w) <= length (requests (world pg)))%nat).
    { clear ND F. subst pg. induction es as [| e' es' IH'] using rev_ind.
      - simpl. lia.
      - rewrite async_run_snoc.
        destruct (settlements_step cfg server e' (async_run cfg server es' (quiet w)) D)
          as [[W _] | [E | [id [W _]]]].
        + rewrite W. unfold issue. cbn [requests]. rewrite length_app. lia.
        + rewrite E. exact IH'.
        + rewrite W, settle_world. cbn [snd].
          destruct (received _); cbn [requests]; exact IH'. }
    destruct e as [| id]; cbn [async_step].
    + rewrite D. cbn [outstanding settled world]. unfold issue. cbn [requests].
      rewrite length_app. cbn [length].
      split.
      * apply (Permutation_NoDup
                 (l := length (requests (world pg)) :: outstanding pg ++ settled pg)).
        { rewrite <- app_assoc. apply Permutation_middle. }
        constructor; [| exact ND].
        intros I. rewrite Forall_forall in F. apply F in I. lia.
      * apply Forall_forall. intros x I.
        rewrite <- app_assoc in I. apply in_app_or in I.
        rewrite Forall_forall in F.
        destruct I as [I | I].
        { assert (K := F x (in_or_app _ _ _ (or_introl I))). lia. }
        destruct I as [<- | I]; [lia |].
        assert (K := F x (in_or_app _ _ _ (or_intror I))). lia.
    + destruct (existsb (Nat.eqb id) (outstanding pg)) eqn:E; [| split; assumption].
      cbn [outstanding settled world].
      rewrite settle_world. cbn [snd].
      apply existsb_exists in E. destruct E as [x [I E]].
      apply Nat.eqb_eq in E. subst x.
      assert (R : length (requests
                 match received (server id (APPS_SCRIPT_URL cfg)) with
                 | Some l => mkWorld (heap (world pg) ++ [l])
                               (mkAppState (length (heap (world pg))) false None)
                               (requests (world pg))
                 | None => mkWorld (heap (world pg))
                             (mkAppState (donations (app (world pg))) false
                                (Some generic_error))
                             (requests (world pg))
                 end) = length (requests (world pg))).
      { destruct (received _); reflexivity. }
      rewrite R. clear R.
      assert (Sub : forall x,
                In x (filter (fun i => negb (Nat.eqb id i)) (outstanding pg) ++
                      settled pg ++ [id]) ->
                In x (outstanding pg ++ settled pg)).
      { intros x H. apply in_app_or in H. apply in_or_app.
        destruct H as [H | H].
        - left. apply filter_In in H. apply H.
        - apply in_app_or in H. destruct H as [H | [<- | []]]; [right | left];
            assumption. }
      split.
      * rewrite app_assoc.
        apply (Permutation_NoDup
                 (l := id :: filter (fun i => negb (Nat.eqb id i)) (outstanding pg)
                             ++ settled pg)).
        { apply Permutation_cons_append. }
        apply NoDup_app_remove_l in ND as NDs.
        apply NoDup_app_remove_r in ND as NDo.
        constructor.
        { intros H. apply in_app_or in H. destruct H as [H | H].
          - apply filter_In in H. destruct H as [_ H].
            rewrite Nat.eqb_refl in H. discriminate.
          - clear - ND I H. induction (outstanding pg) as [| y t IHt];
              [destruct I |].
            simpl in ND. inversion ND as [| ? ? Ny NDt]; subst.
            destruct I as [-> | I].
            + apply Ny. apply in_or_app. right. exact H.
            + apply IHt; assumption. }
        clear - ND. induction (outstanding pg) as [| y t IHt]; simpl.
        { exact ND. }
        simpl in ND. inversion ND as [| ? ? Ny NDt]; subst.
        destruct (negb (Nat.eqb id y)); [| apply IHt, NDt].
        simpl. constructor; [| apply IHt, NDt].
        intros H. apply Ny. apply in_app_or in H. apply in_or_app.
        destruct H as [H | H]; [left | right; exact H].
        apply filter_In in H. apply H.
      * apply Forall_forall. intros x H. rewrite Forall_forall in F.
        apply F, Sub, H.
Qed.

(** X9.  Outside demo mode the calls of [fetchDonations] overlap: the
    interval starts one without waiting for the last.  Whatever the order in
    which calls are started and requests settle, the array in state holds
    the list of the request that settled last among those that brought one,
    which need not be the request issued last; when no request has brought
    one, it still holds what it held before. *)
Theorem displayed_is_last_settled (cfg : Config) (server : Server)
    (es : list async_event) (w : World) :
  isDemo cfg = false ->
  let pg := async_run cfg server es (quiet w) in
  displayed (world pg) =
  match last_received (settlements server (APPS_SCRIPT_URL cfg) pg) with
  | Some l => l
  | None => displayed w
  end.
Proof.
  intros D. cbn zeta. induction es as [| e es IH] using rev_ind; [reflexivity |].
  rewrite async_run_snoc.
  destruct (settlements_step cfg server e (async_run cfg server es (quiet w)) D)
    as [[W S] | [E | [id [W S]]]]; unfold settlements in *.
  - rewrite W, S. exact IH.
  - rewrite E. exact IH.
  - rewrite W, S, map_app. cbn [map]. rewrite last_received_snoc.
    rewrite settle_world. cbn [snd].
    destruct (received (server id (APPS_SCRIPT_URL cfg))) as [l |]; [| exact IH].
    unfold displayed. cbn [heap app donations].
    exact (read_alloc_new (heap (world (async_run cfg server es (quiet w)))) l).
Qed.

(** X10.  Outside demo mode, with overlapping calls, the error shown depends
    on the request that settled last alone: it is null when that request
    brought a list and the generic message otherwise, whatever the requests
    issued or settled before it met; as long as no request has settled the
    error is what it was. *)
Theorem error_reflects_last_settled (cfg : Config) (server : Server)
    (es : list async_event) (w : World) :
  isDemo cfg = false ->
  let pg := async_run cfg server es (quiet w) in
  error (app (world pg)) =
  match rev (settlements server (APPS_SCRIPT_URL cfg) pg) with
  | [] => error (app w)
  | r :: _ => match received r with
              | Some _ => None
              | None => Some generic_error
              end
  end.
Proof.
  intros D. cbn zeta. induction es as [| e es IH] using rev_ind; [reflexivity |].
  rewrite async_run_snoc.
  destruct (settlements_step cfg server e (async_run cfg server es (quiet w)) D)
    as [[W S] | [E | [id [W S]]]]; unfold settlements in *.
  - rewrite W, S. exact IH.
  - rewrite E. exact IH.
  - rewrite W, S, map_app, rev_app_distr. cbn [map rev List.app].
    rewrite settle_world. cbn [snd].
    destruct (received (server id (APPS_SCRIPT_URL cfg))); reflexivity.
Qed.

Lemma displayed_is_last_settled_witness :
  let server : Server := fun n _ =>
    match n with
    | O => Resolved (mkResponse 200
             (JsonData (mkApiResponse (Some true) (Some DEMO) None)))
    | _ => Resolved (mkResponse 200
             (JsonData (mkApiResponse (Some true) (Some (rev DEMO)) None)))
    end in
  displayed (world (async_run CONFIG server [Tick; Tick; Settle 1%nat; Settle O]
                      (quiet initial_world))) = DEMO.
Proof.
  intros server.
  exact (displayed_is_last_settled CONFIG server
           [Tick; Tick; Settle 1%nat; Settle O] initial_world eq_refl).
Defined.

Lemma error_reflects_last_settled_witness :
  let server : Server := fun n _ =>
    match n with
    | 1%nat => Resolved (mkResponse 200
                 (JsonData (mkApiResponse (Some true) (Some DEMO) None)))
    | _ => Rejected
    end in
  error (app (world (async_run CONFIG server [Tick; Tick; Settle 1%nat; Settle O]
                       (quiet initial_world)))) = Some generic_error /\
  error (app (world (async_run CONFIG server [Tick; Tick; Settle O; Settle 1%nat]
                       (quiet initial_world)))) = None.
Proof.
  intros server. split.
  - exact (error_reflects_last_settled CONFIG server
             [Tick; Tick; Settle 1%nat; Settle O] initial_world eq_refl).
  - exact (error_reflects_last_settled CONFIG server
             [Tick; Tick; Settle O; Settle 1%nat] initial_world eq_refl).
Defined.

(** ** Refreshes and renders never modify an array *)


Lemma aggregate_length cfg h d :
  length (fst (aggregate cfg h d)) = S (length h).
Proof.
  rewrite aggregate_eq. cbn [fst]. rewrite heap_set_length, length_app.
  simpl. lia.
Qed.

Lemma handle_keeps_arrays cfg server e w :
  valid_state w ->
  valid_state (handle cfg server e w) /\
  (length (heap w) <= length (heap (handle cfg server e w)))%nat /\
  forall a, (a < length (heap w))%nat ->
            read (heap (handle cfg server e w)) a = read (heap w) a.
Proof.
  intros [Vd V0]. unfold valid_state, DEMO_loc in *. destruct e; cbn [handle].
  - destruct (isDemo cfg) eqn:D.
    + rewrite fetchDonations_demo by exact D.
      cbn [snd heap app donations]. unfold DEMO_loc.
      split; [split; lia | split; [lia | reflexivity]].
    + rewrite fetchDonations_received by exact D.
      destruct (received _) as [l |].
      * unfold after_success. cbn [heap app donations].
        rewrite length_app. cbn [length].
        split; [split; lia | split; [lia |]].
        intros a Ha. exact (read_alloc_old (heap w) l a Ha).
      * unfold after_failure. cbn [heap app donations].
        split; [split; lia | split; [lia | reflexivity]].
  - unfold render, view. cbn [heap app donations].
    rewrite aggregate_length.
    split; [split; lia | split; [lia |]].
    intros a Ha. apply aggregate_frame, Ha.
Qed.

(** X11.  No refresh and no render ever modifies an array that exists: after
    any sequence of refresh cycles and renders every array of the heap, the
    constant [DEMO] among them, holds the records it held before, the array
    in state stays an object of the heap, and a render does not change what
    is displayed. *)
Theorem arrays_never_modified (cfg : Config) (server : Server)
    (es : list event) : forall w : World,
  valid_state w ->
  let w' := run_events cfg server es w in
  valid_state w' /\
  (forall a, (a < length (heap w))%nat -> read (heap w') a = read (heap w) a) /\
  displayed (render cfg w') = displayed w'.
Proof.
  assert (Main : forall es w, valid_state w ->
            valid_state (run_events cfg server es w) /\
            (length (heap w) <= length (heap (run_events cfg server es w)))%nat /\
            forall a, (a < length (heap w))%nat ->
              read (heap (run_events cfg server es w)) a = read (heap w) a).
  { clear es. induction es as [| e t IH]; intros w V.
    - repeat split; try apply V; auto.
    - change (run_events cfg server (e :: t) w)
        with (run_events cfg server t (handle cfg server e w)).
      destruct (handle_keeps_arrays cfg server e w V) as (V1 & L1 & R1).
      destruct (IH _ V1) as (V2 & L2 & R2).
      split; [exact V2 |]. split; [lia |].
      intros a Ha. rewrite R2 by lia. apply R1, Ha. }
  intros w V w'. destruct (Main es w V) as (V' & _ & R).
  split; [exact V' |]. split; [exact R |].
  destruct (handle_keeps_arrays cfg server Render w' V') as (_ & _ & R').
  unfold displayed. cbn [handle] in R'.
  change (donations (app (render cfg w'))) with (donations (app w')).
  apply R'. apply V'.
Qed.

Lemma arrays_never_modified_witness :
  let server : Server := fun n _ =>
    match n with
    | O => Resolved (mkResponse 200
             (JsonData (mkApiResponse (Some true) (Some (rev DEMO)) None)))
    | _ => Rejected
    end in
  let w' := run_events CONFIG server [Refresh; Render; Refresh; Render]
              initial_world in
  valid_state w' /\
  (forall a, (a < length (heap initial_world))%nat ->
             read (heap w') a = read (heap initial_world) a) /\
  displayed (render CONFIG w') = displayed w'.
Proof.
  intros server.
  apply (arrays_never_modified CONFIG server [Refresh; Render; Refresh; Render]
           initial_world).
  unfold valid_state, DEMO_loc. simpl. lia.
Defined.

(* ================================================================= *)
(** * The donor list *)

Lemma cards_from_length l : forall i, length (cards_from i l) = length l.
Proof. induction l as [| d t IH]; intros i; simpl; [| rewrite IH]; reflexivity. Qed.

Lemma cards_from_donors l : forall i, map donor (cards_from i l) = l.
Proof. induction l as [| d t IH]; intros i; simpl; [| rewrite IH]; reflexivity. Qed.

Lemma cards_from_nth l : forall i k c,
  nth_error (cards_from i l) k = Some c ->
  rank c = (i + k)%nat /\ delay c = ((i + k) * 60)%nat /\
  nth_error l k = Some (donor c).
Proof.
  induction l as [| d t IH]; intros i k c H.
  - destruct k; discriminate H.
  - destruct k as [| k]; simpl in H.
    + injection H as <-. simpl. rewrite Nat.add_0_r. auto.
    + destruct (IH (S i) k c H) as (R & Dl & N).
      rewrite R, Dl. replace (S i + k)%nat with (i + S k)%nat by lia. auto.
Qed.

Lemma sorted_nth l : StronglySorted desc l ->
  forall i j a b, (i < j)%nat ->
  nth_error l i = Some a -> nth_error l j = Some b -> desc a b.
Proof.
  induction 1 as [| x t St IH F]; intros i j a b Hij Ha Hb.
  - destruct i; discriminate Ha.
  - destruct j as [| j]; [lia |]. simpl in Hb.
    destruct i as [| i]; simpl in Ha.
    + injection Ha as <-. rewrite Forall_forall in F.
      apply F. apply (nth_error_In _ _ Hb).
    + apply (IH i j a b); [lia | exact Ha | exact Hb].
Qed.

(** X12.  The donor section follows the loading flag and the array in
    state: skeleton cards (four of them) exactly while loading; the empty
    state exactly when loading is over and there is no donation; otherwise
    one card per donation, their donors being the stable descending sort of
    the array in state. *)
Theorem donor_section_cases (cfg : Config) (w : World) :
  match App_donor_section cfg w with
  | Skeletons n => loading (app w) = true /\ n = 4%nat
  | EmptyState => loading (app w) = false /\ displayed w = []
  | Cards cs =>
      loading (app w) = false /\ displayed w <> [] /\
      length cs = length (displayed w) /\
      map donor cs = sort by_amount_desc (displayed w)
  end.
Proof.
  unfold App_donor_section, donor_section, view. rewrite aggregate_sorted.
  fold (displayed w).
  destruct (loading (app w)); [split; reflexivity |].
  pose proof (Permutation_length (sort_perm (displayed w))) as L.
  destruct (Nat.eqb_spec (length (sort by_amount_desc (displayed w))) 0) as [E | E].
  - split; [reflexivity |]. rewrite <- L in E.
    destruct (displayed w); [reflexivity | discriminate E].
  - split; [reflexivity |]. split.
    + intros K. rewrite K in E. simpl in E. lia.
    + unfold donor_cards. rewrite cards_from_length, cards_from_donors. auto.
Qed.

(** X13.  Every card carries its position as rank and 60 ms of delay per
    position, and the medal of that position: the first three cards get the
    three medals in order and no other card gets one.  As the cards are in
    descending order, a donor with a medal gave at least as much as any
    donor without. *)
Theorem medals_follow_rank (l : list Donation) :
  let cs := donor_cards (sort by_amount_desc l) in
  (forall k c, nth_error cs k = Some c ->
     rank c = k /\ delay c = (k * 60)%nat /\
     card_medal c = nth_error medals k) /\
  (forall c1 c2 m, In c1 cs -> In c2 cs ->
     card_medal c1 = Some m -> card_medal c2 = None ->
     (amount (donor c2) <= amount (donor c1))%Z).
Proof.
  intros cs.
  assert (N : forall k c, nth_error cs k = Some c ->
            rank c = k /\ delay c = (k * 60)%nat /\
            nth_error (sort by_amount_desc l) k = Some (donor c)).
  { intros k c H. apply (cards_from_nth _ O k c H). }
  assert (M : forall c, card_medal c = nth_error medals (rank c)).
  { intros c. unfold card_medal.
    destruct (Nat.ltb_spec (rank c) 3) as [L | L]; [reflexivity |].
    symmetry. apply nth_error_None. simpl. lia. }
  split.
  - intros k c H. destruct (N k c H) as (R & Dl & _).
    rewrite M, R. auto.
  - intros c1 c2 m H1 H2 M1 M2.
    apply In_nth_error in H1. apply In_nth_error in H2.
    destruct H1 as [k1 H1], H2 as [k2 H2].
    destruct (N k1 c1 H1) as (R1 & _ & D1).
    destruct (N k2 c2 H2) as (R2 & _ & D2).
    rewrite M in M1, M2. rewrite R1 in M1. rewrite R2 in M2.
    apply nth_error_None in M2. simpl in M2.
    assert (k1 < 3)%nat.
    { change 3%nat with (length medals).
      apply (proj1 (nth_error_Some medals k1)). rewrite M1. discriminate. }
    apply (sorted_nth _ (sort_sorted l) k1 k2 (donor c1) (donor c2));
      [lia | exact D1 | exact D2].
Qed.

Lemma filter_head_split {A} (f : A -> bool) l : forall x r,
  filter f l = x :: r ->
  exists l1 l2, l = l1 ++ x :: l2 /\ Forall (fun y => f y = false) l1.
Proof.
  induction l as [| y t IH]; intros x r H; [discriminate H |].
  simpl in H. destruct (f y) eqn:E.
  - injection H as <- _. exists [], t. split; [reflexivity | constructor].
  - destruct (IH x r H) as (l1 & l2 & -> & F).
    exists (y :: l1), l2. split; [reflexivity | constructor; assumption].
Qed.

(** X14.  The top of the leaderboard is the largest donation, and among
    equal largest ones the one that comes first in the array in state: no
    record has a larger amount, and every record before it in the input has
    a strictly smaller one. *)
Theorem top_card_is_first_largest (cfg : Config) (h : Heap) (d : loc)
    (x : Donation) (t : list Donation) :
  read (fst (aggregate cfg h d)) (sorted (snd (aggregate cfg h d))) = x :: t ->
  (forall y, In y (read h d) -> (amount y <= amount x)%Z) /\
  exists l1 l2, read h d = l1 ++ x :: l2 /\
                forall y, In y l1 -> (amount y < amount x)%Z.
Proof.
  rewrite aggregate_sorted. intros E.
  pose proof (sort_sorted (read h d)) as S. rewrite E in S.
  inversion S as [| ? ? _ F]; subst. rewrite Forall_forall in F.
  assert (Le : forall y, In y (read h d) -> (amount y <= amount x)%Z).
  { intros y Hy. apply (Permutation_in _ (sort_perm (read h d))) in Hy.
    rewrite E in Hy. destruct Hy as [<- | Hy]; [lia | apply (F y Hy)]. }
  split; [exact Le |].
  pose proof (sort_with_amount (amount x) (read h d)) as W.
  rewrite E in W. unfold with_amount in W. simpl in W.
  rewrite Z.eqb_refl in W. symmetry in W.
  destruct (filter_head_split _ _ _ _ W) as (l1 & l2 & Hl & Fl).
  exists l1, l2. split; [exact Hl |].
  intros y Hy. rewrite Forall_forall in Fl. specialize (Fl y Hy).
  apply Z.eqb_neq in Fl.
  assert (amount y <= amount x)%Z by (apply Le; rewrite Hl; apply in_or_app; left; exact Hy).
  lia.
Qed.

Lemma top_card_is_first_largest_witness :
  let x := mkDonation "Ahmad Fauzi" 1000000 "01 Mar 2025, 10:22" EmptyString in
  (forall y, In y (read [DEMO] 0%nat) -> (amount y <= amount x)%Z) /\
  exists l1 l2, read [DEMO] 0%nat = l1 ++ x :: l2 /\
                forall y, In y l1 -> (amount y < amount x)%Z.
Proof.
  intros x.
  apply (top_card_is_first_largest CONFIG [DEMO] 0%nat x
           [ mkDonation "Dewi Lestari" 750000 "01 Mar 2025, 14:01" EmptyString;
             mkDonation "Siti Rahayu" 500000 "01 Mar 2025, 11:05" EmptyString;
             mkDonation "Budi Santoso" 250000 "01 Mar 2025, 12:14" EmptyString;
             mkDonation "Anonymous" 150000 "01 Mar 2025, 13:30" EmptyString ]).
  vm_compute. reflexivity.
Defined.

(* ================================================================= *)
(** * The lightbox *)

Lemma lightbox_run es : forall src,
  (forall url, src = Some url -> truthy url = true) ->
  forall url, fold_left lightbox_step es src = Some url ->
  truthy url = true /\
  (src = Some url \/
   exists c, In (ClickReceipt c) es /\ receiptUrl (donor c) = url).
Proof.
  induction es as [| e t IH]; intros src I url H.
  - simpl in H. split; [apply I, H | left; exact H].
  - simpl in H. apply IH in H.
    + destruct H as [T [H | [c [Hc Hu]]]].
      * split; [exact T |]. destruct e as [c |]; simpl in H.
        -- unfold receipt_button in H.
           destruct (truthy (receiptUrl (donor c))) eqn:E.
           ++ injection H as H. right. exists c. split; [left; reflexivity | exact H].
           ++ left. exact H.
        -- discriminate H.
      * split; [exact T |]. right. exists c. split; [right; exact Hc | exact Hu].
    + intros u Hu. destruct e as [c |]; simpl in Hu.
      * unfold receipt_button in Hu.
        destruct (truthy (receiptUrl (donor c))) eqn:E.
        -- injection Hu as <-. exact E.
        -- apply I, Hu.
      * discriminate Hu.
Qed.

(** X15.  Starting from the closed lightbox, after any sequence of receipt
    clicks and dialog closings the dialog is open exactly when [lightboxSrc]
    is not null, and then it shows the non-empty receipt URL of a card that
    was clicked; a card without a receipt URL has no button, and closing
    always resets the viewer. *)
Theorem lightbox_shows_clicked_receipt (es : list ui_event) :
  let src := fold_left lightbox_step es None in
  (dialog_open src = true <-> src <> None) /\
  (forall url, src = Some url ->
     url <> EmptyString /\
     exists c, In (ClickReceipt c) es /\ receiptUrl (donor c) = url) /\
  (forall c, receiptUrl (donor c) = EmptyString -> receipt_button c = None) /\
  fold_left lightbox_step (es ++ [CloseDialog]) None = None.
Proof.
  intros src.
  assert (I : forall url, src = Some url ->
            truthy url = true /\
            exists c, In (ClickReceipt c) es /\ receiptUrl (donor c) = url).
  { intros url H. destruct (lightbox_run es None) with (url := url) as [T [K | K]];
      try discriminate; auto. }
  split; [| split; [| split]].
  - unfold dialog_open. destruct src as [u |] eqn:E.
    + destruct (I u eq_refl) as [T _]. rewrite T. split; [discriminate | reflexivity].
    + split; [discriminate | intros K; contradiction].
  - intros url H. destruct (I url H) as [T X]. split; [| exact X].
    intros ->. discriminate T.
  - intros c H. unfold receipt_button. rewrite H. reflexivity.
  - rewrite fold_left_app. reflexivity.
Qed.

(* ================================================================= *)
(** * More about the progress percentage *)

Lemma ratio_mono t1 t2 :
  t1 <= t2 -> fmul (fdiv t1 15000000) 100 <= fmul (fdiv t2 15000000) 100.
Proof.
  intros H. unfold fmul, fdiv. apply fl_mono.
  apply Qmult_le_compat_r; [| discriminate].
  apply fl_mono. rewrite !div_goal. lra.
Qed.

Lemma aggregate_pct h d :
  pct (snd (aggregate CONFIG h d)) =
  Z.min 100
    (Math_round (fmul (fdiv (total (snd (aggregate CONFIG h d))) 15000000) 100)).
Proof. rewrite aggregate_eq. reflexivity. Qed.

Lemma aggregate_total_exact cfg h d :
  (sum_abs_amounts (read h d) <= 2 ^ 53)%Z ->
  total (snd (aggregate cfg h d)) == inject_Z (sum_amounts (read h d)).
Proof.
  intros B. rewrite aggregate_total.
  rewrite (reduce_exact _ 0 0%Z); [| reflexivity |].
  - rewrite (sum_amounts_perm _ _ (sort_perm (read h d))). reflexivity.
  - rewrite <- (sum_abs_amounts_perm _ _ (sort_perm (read h d))).
    simpl. exact B.
Qed.

(** The percentage as a function of an exact integer total. *)
Lemma pct_of_sum h d :
  (sum_abs_amounts (read h d) <= 2 ^ 53)%Z ->
  pct (snd (aggregate CONFIG h d)) =
  Z.min 100
    (Math_round (fmul (fdiv (inject_Z (sum_amounts (read h d))) 15000000) 100)).
Proof.
  intros B. rewrite aggregate_pct. unfold fmul, fdiv.
  rewrite (fl_comp (total (snd (aggregate CONFIG h d)) / 15000000)
             (inject_Z (sum_amounts (read h d)) / 15000000)); [reflexivity |].
  rewrite (aggregate_total_exact CONFIG h d B). reflexivity.
Qed.

Lemma round_ratio_mono (s1 s2 : Z) :
  (s1 <= s2)%Z ->
  (Math_round (fmul (fdiv (inject_Z s1) 15000000) 100) <=
   Math_round (fmul (fdiv (inject_Z s2) 15000000) 100))%Z.
Proof.
  intros H. apply Math_round_mono, ratio_mono. rewrite <- Zle_Qle. exact H.
Qed.

(** X16.  With amounts in the exact range (absolute values summing to at
    most 2^53), the percentage reads 100 exactly when the sum is at least
    14,925,000, that is from 99.5 percent of the goal of 15,000,000 on: the
    bar is full before the goal is reached. *)
Theorem pct_full_from_14925000 (h : Heap) (d : loc) :
  (sum_abs_amounts (read h d) <= 2 ^ 53)%Z ->
  (pct (snd (aggregate CONFIG h d)) = 100%Z <->
   (14925000 <= sum_amounts (read h d))%Z).
Proof.
  intros B. rewrite (pct_of_sum h d B).
  set (s := sum_amounts (read h d)).
  assert (Hi : Math_round (fmul (fdiv (inject_Z 14925000) 15000000) 100) = 100%Z)
    by (vm_compute; reflexivity).
  assert (Lo : Math_round (fmul (fdiv (inject_Z 14924999) 15000000) 100) = 99%Z)
    by (vm_compute; reflexivity).
  split; intros H.
  - destruct (Z_le_gt_dec 14925000 s) as [K | K]; [exact K | exfalso].
    pose proof (round_ratio_mono s 14924999 ltac:(lia)) as M.
    rewrite Lo in M. lia.
  - pose proof (round_ratio_mono 14925000 s H) as M.
    rewrite Hi in M. lia.
Qed.

Lemma pct_full_from_14925000_witness :
  pct (snd (aggregate CONFIG [DEMO] 0%nat)) = 100%Z <->
  (14925000 <= sum_amounts (read [DEMO] 0%nat))%Z.
Proof.
  apply (pct_full_from_14925000 [DEMO] 0%nat). vm_compute. discriminate.
Defined.

(** X17.  The percentage is clamped from above only.  With amounts in the
    exact range, a sum of -75,001 or less (negative amounts are numbers like
    any other) gives a negative percentage, and any sum from -75,000 on gives
    one that is not negative. *)
Theorem pct_not_clamped_below (h : Heap) (d : loc) :
  (sum_abs_amounts (read h d) <= 2 ^ 53)%Z ->
  (pct (snd (aggregate CONFIG h d)) < 0 <->
   sum_amounts (read h d) <= -75001)%Z.
Proof.
  intros B. rewrite (pct_of_sum h d B).
  set (s := sum_amounts (read h d)).
  assert (Hi : Math_round (fmul (fdiv (inject_Z (-75000)) 15000000) 100) = 0%Z)
    by (vm_compute; reflexivity).
  assert (Lo : Math_round (fmul (fdiv (inject_Z (-75001)) 15000000) 100) = (-1)%Z)
    by (vm_compute; reflexivity).
  split; intros H.
  - destruct (Z_le_gt_dec s (-75001)) as [K | K]; [exact K | exfalso].
    pose proof (round_ratio_mono (-75000) s ltac:(lia)) as M.
    rewrite Hi in M. lia.
  - pose proof (round_ratio_mono s (-75001) H) as M.
    rewrite Lo in M. lia.
Qed.

Lemma pct_not_clamped_below_witness :
  let l := [mkDonation "Refund" (-150000) EmptyString EmptyString] in
  (pct (snd (aggregate CONFIG [l] 0%nat)) < 0)%Z.
Proof.
  intros l.
  apply (pct_not_clamped_below [l] 0%nat); vm_compute; discriminate.
Defined.

(** X18.  The percentage never moves against the total: a larger total
    never shows a smaller percentage, and for amounts in the exact range a
    larger sum of the amounts never does. *)
Theorem pct_monotone (h1 h2 : Heap) (d1 d2 : loc) :
  let a1 := snd (aggregate CONFIG h1 d1) in
  let a2 := snd (aggregate CONFIG h2 d2) in
  (total a1 <= total a2 -> (pct a1 <= pct a2)%Z) /\
  ((sum_abs_amounts (read h1 d1) <= 2 ^ 53)%Z ->
   (sum_abs_amounts (read h2 d2) <= 2 ^ 53)%Z ->
   (sum_amounts (read h1 d1) <= sum_amounts (read h2 d2))%Z ->
   (pct a1 <= pct a2)%Z).
Proof.
  intros a1 a2.
  assert (G : total a1 <= total a2 -> (pct a1 <= pct a2)%Z).
  { intros H. unfold a1, a2. rewrite !aggregate_pct.
    apply Z.min_le_compat_l. apply Math_round_mono, ratio_mono, H. }
  split; [exact G |].
  intros B1 B2 S. apply G. unfold a1, a2.
  rewrite (aggregate_total_exact CONFIG h1 d1 B1).
  rewrite (aggregate_total_exact CONFIG h2 d2 B2).
  rewrite <- Zle_Qle. exact S.
Qed.

Lemma pct_monotone_witness :
  let l := [mkDonation "A" 4275000 EmptyString EmptyString] in
  (pct (snd (aggregate CONFIG [DEMO] 0%nat)) <=
   pct (snd (aggregate CONFIG [l] 0%nat)))%Z.
Proof.
  intros l.
  destruct (pct_monotone [DEMO] [l] 0%nat 0%nat) as [_ S].
  apply S; vm_compute; discriminate.
Defined.

(* ================================================================= *)
(** * More about the sort and demo mode *)

(** X19.  The order of [sorted] is forced: whatever array is descending by
    amount, a permutation of the input, and keeps the input order among the
    records of each amount, is the array computed here.  Sorting the sorted
    array again therefore changes nothing. *)
Theorem sorted_order_is_forced (l s : list Donation) :
  stable_desc_sort_of l s ->
  s = sort by_amount_desc l /\ sort by_amount_desc s = s.
Proof.
  intros H. destruct H as [S [P W]].
  assert (E : s = sort by_amount_desc l).
  { apply stable_desc_unique; [exact S | apply sort_sorted |].
    intros v. rewrite W, sort_with_amount. reflexivity. }
  split; [exact E |].
  symmetry. apply stable_desc_unique; [exact S | apply sort_sorted |].
  intros v. rewrite sort_with_amount. reflexivity.
Qed.

Lemma sorted_order_is_forced_witness :
  let s := [ mkDonation "Ahmad Fauzi" 1000000 "01 Mar 2025, 10:22" EmptyString;
             mkDonation "Dewi Lestari" 750000 "01 Mar 2025, 14:01" EmptyString;
             mkDonation "Siti Rahayu" 500000 "01 Mar 2025, 11:05" EmptyString;
             mkDonation "Budi Santoso" 250000 "01 Mar 2025, 12:14" EmptyString;
             mkDonation "Anonymous" 150000 "01 Mar 2025, 13:30" EmptyString ] in
  s = sort by_amount_desc DEMO /\ sort by_amount_desc s = s.
Proof.
  intros s. apply (sorted_order_is_forced DEMO s).
  replace s with (sort by_amount_desc DEMO) by (vm_compute; reflexivity).
  apply sort_stable_desc.
Defined.

Lemma cycles_demo cfg server n : forall w,
  isDemo cfg = true ->
  requests (snd (cycles cfg server n w)) = requests w /\
  heap (snd (cycles cfg server n w)) = heap w /\
  error (app (snd (cycles cfg server n w))) = error (app w) /\
  (n <> O -> donations (app (snd (cycles cfg server n w))) = DEMO_loc).
Proof.
  induction n as [| k IH]; intros w D.
  - repeat split; try reflexivity. intros K. contradiction.
  - rewrite cycles_S. destruct (IH (snd (fetchDonations cfg server w)) D)
      as (R & H & E & Dn).
    rewrite R, H, E.
    split; [rewrite fetchDonations_demo by exact D; reflexivity |].
    split; [rewrite fetchDonations_demo by exact D; reflexivity |].
    split; [rewrite fetchDonations_demo by exact D; reflexivity |].
    intros _. destruct k as [| k'].
    + rewrite fetchDonations_demo by exact D. reflexivity.
    + apply Dn. discriminate.
Qed.

(** X20.  In demo mode the refresh effect never touches the network and
    never reports an error: after the first call and any number of interval
    ticks the request log and the error are what they were, no array was
    allocated, and the array in state is [DEMO]. *)
Theorem demo_mode_stays_offline (cfg : Config) (server : Server)
    (ticks : nat) (w : World) :
  isDemo cfg = true ->
  let w' := snd (refresh cfg server ticks w) in
  requests w' = requests w /\
  heap w' = heap w /\
  error (app w') = error (app w) /\
  donations (app w') = DEMO_loc /\
  loading (app w') = false.
Proof.
  intros D w'. unfold w'. rewrite refresh_cycles.
  destruct (cycles_demo cfg server (S ticks) w D) as (R & H & E & Dn).
  repeat split; try assumption.
  - apply Dn. discriminate.
  - rewrite cycles_snoc. apply fetchDonations_loading.
Qed.

Lemma demo_mode_stays_offline_witness :
  let cfg := mkConfig "YOUR_APPS_SCRIPT_URL" (GOOGLE_FORM_URL CONFIG)
               (DONATION_GOAL CONFIG) (REFRESH_MS CONFIG) in
  let w' := snd (refresh cfg (fun _ _ => Rejected) 3 initial_world) in
  requests w' = requests initial_world /\
  heap w' = heap initial_world /\
  error (app w') = error (app initial_world) /\
  donations (app w') = DEMO_loc /\
  loading (app w') = false.
Proof.
  intros cfg.
  apply (demo_mode_stays_offline cfg (fun _ _ => Rejected) 3 initial_world).
  reflexivity.
Defined.

Lemma medals_follow_rank_witness :
  let cs := donor_cards (sort by_amount_desc DEMO) in
  let first := mkDonorCardProps
    (mkDonation "Ahmad Fauzi" 1000000 "01 Mar 2025, 10:22" EmptyString) 0 0 in
  let fourth := mkDonorCardProps
    (mkDonation "Budi Santoso" 250000 "01 Mar 2025, 12:14" EmptyString) 3 180 in
  card_medal first = Some Gold /\
  (amount (donor fourth) <= amount (donor first))%Z.
Proof.
  intros cs first fourth.
  destruct (medals_follow_rank DEMO) as [R O].
  assert (H1 : nth_error cs 0 = Some first) by (vm_compute; reflexivity).
  assert (H4 : nth_error cs 3 = Some fourth) by (vm_compute; reflexivity).
  destruct (R 0%nat first H1) as (_ & _ & M1).
  destruct (R 3%nat fourth H4) as (_ & _ & M4).
  split; [exact M1 |].
  apply (O first fourth Gold);
    [apply (nth_error_In _ _ H1) | apply (nth_error_In _ _ H4) | exact M1 | exact M4].
Defined.

Lemma lightbox_shows_clicked_receipt_witness :
  let c := mkDonorCardProps
    (mkDonation "Ahmad Fauzi" 1000000 "01 Mar 2025, 10:22" "https://example.org/r1.png")
    0 0 in
  let blank := mkDonorCardProps
    (mkDonation "Siti Rahayu" 500000 "01 Mar 2025, 11:05" EmptyString) 1 60 in
  let src := fold_left lightbox_step [CloseDialog; ClickReceipt c; ClickReceipt blank] None in
  dialog_open src = true /\
  exists c', In (ClickReceipt c') [CloseDialog; ClickReceipt c; ClickReceipt blank] /\
             receiptUrl (donor c') = "https://example.org/r1.png"%string.
Proof.
  intros c blank src.
  destruct (lightbox_shows_clicked_receipt
              [CloseDialog; ClickReceipt c; ClickReceipt blank])
    as (Open & Shown & _ & _).
  split.
  - apply Open. discriminate.
  - apply (Shown "https://example.org/r1.png"%string). reflexivity.
Defined.
